(** * compress: an HTTP middleware for gzip and deflate compression

    A shallow embedding of [compress.go] and the properties of its
    negotiation, eligibility check and compressing response writer.

    Go strings are byte sequences, so [string] (a list of 8-bit [ascii])
    models them directly; [int] is the 64-bit integer, carried in [Z];
    [http.Header] is a [map[string][]string], carried in a [gmap]. *)

From Stdlib Require Import ZArith Ascii.
From stdpp Require Import base tactics option list strings gmap.

Local Open Scope Z_scope.

(** ** Errors *)

(** The two causes a [strconv.NumError] carries. *)
Inductive numError := ErrSyntax | ErrRange.

(** Error values that flow through the package.  [ErrNew] and [ErrWrap]
    are [errors.New] and a non-nil [errors.Wrap] of [github.com/pkg/errors];
    [ErrLevel] is the invalid-level error of [compress/gzip] and
    [compress/flate]; [ErrShortWrite] is [io.ErrShortWrite]; [ErrExt] stands
    for any error produced by the network connection or by a codec. *)
Inductive error :=
| ErrNew (msg : string)
| ErrWrap (cause : error) (msg : string)
| ErrLevel (pkg : string) (level : Z)
| ErrShortWrite
| ErrExt (id : nat).

(** [errors.Wrap]: nil stays nil. *)
Definition Wrap (e : option error) (msg : string) : option error :=
  match e with
  | None => None
  | Some e => Some (ErrWrap e msg)
  end.

(** ** The parts of the Go library the package calls *)

Definition byteVal (c : ascii) : Z := Z.of_N (N_of_ascii c).

(** [strings.HasPrefix]. *)
Fixpoint HasPrefix (s pre : string) {struct pre} : bool :=
  match pre, s with
  | EmptyString, _ => true
  | String a pre', String b s' => Ascii.eqb a b && HasPrefix s' pre'
  | String _ _, EmptyString => false
  end.

(** [strings.Split(s, ",")]: one more piece than there are commas. *)
Fixpoint Split (s : string) : list string :=
  match s with
  | EmptyString => [EmptyString]
  | String c s' =>
      if Ascii.eqb c ","%char then EmptyString :: Split s'
      else match Split s' with
           | t :: ts => String c t :: ts
           | [] => [String c EmptyString]
           end
  end.

(** White space as [unicode.IsSpace] sees it, on the UTF-8 bytes of a rune. *)
Definition isSpace1 (b0 : ascii) : bool :=
  let n := byteVal b0 in ((9 <=? n) && (n <=? 13)) || (n =? 32).

(** U+0085 and U+00A0. *)
Definition isSpace2 (b0 b1 : ascii) : bool :=
  (byteVal b0 =? 194) && ((byteVal b1 =? 133) || (byteVal b1 =? 160)).

(** U+1680, U+2000..U+200A, U+2028, U+2029, U+202F, U+205F, U+3000. *)
Definition isSpace3 (b0 b1 b2 : ascii) : bool :=
  let '(x, y, z) := (byteVal b0, byteVal b1, byteVal b2) in
  ((x =? 225) && (y =? 154) && (z =? 128))
  || ((x =? 226) && (y =? 128)
      && (((128 <=? z) && (z <=? 138)) || (z =? 168) || (z =? 169) || (z =? 175)))
  || ((x =? 226) && (y =? 129) && (z =? 159))
  || ((x =? 227) && (y =? 128) && (z =? 128)).

(** [strings.TrimLeftFunc(s, unicode.IsSpace)]: runes are decoded from the
    front; a byte sequence that is no white-space rune stops the scan. *)
Fixpoint trimLeftSpace (s : string) : string :=
  match s with
  | EmptyString => EmptyString
  | String b0 s1 =>
      if isSpace1 b0 then trimLeftSpace s1
      else match s1 with
           | EmptyString => s
           | String b1 s2 =>
               if isSpace2 b0 b1 then trimLeftSpace s2
               else match s2 with
                    | EmptyString => s
                    | String b2 s3 =>
                        if isSpace3 b0 b1 b2 then trimLeftSpace s3 else s
                    end
           end
  end.

(** [strings.TrimRightFunc(s, unicode.IsSpace)] on the reversed string: the
    last rune is decoded backwards from the end, so the bytes arrive last
    first. *)
Fixpoint trimRevSpace (r : string) : string :=
  match r with
  | EmptyString => EmptyString
  | String c0 r1 =>
      if isSpace1 c0 then trimRevSpace r1
      else match r1 with
           | EmptyString => r
           | String c1 r2 =>
               if isSpace2 c1 c0 then trimRevSpace r2
               else match r2 with
                    | EmptyString => r
                    | String c2 r3 =>
                        if isSpace3 c2 c1 c0 then trimRevSpace r3 else r
                    end
           end
  end.

(** [strings.TrimSpace]: leading, then trailing white space. *)
Definition TrimSpace (s : string) : string :=
  String.rev (trimRevSpace (String.rev (trimLeftSpace s))).

(** [strconv]: the value of a decimal digit. *)
Definition digitVal (c : ascii) : option Z :=
  let n := byteVal c in
  if (48 <=? n) && (n <=? 57) then Some (n - 48) else None.

(** The size of [int] in bits. *)
Definition IntSize : Z := 64.
Definition maxUint64 : Z := 2 ^ 64 - 1.

(** The loop of [strconv.ParseUint] for base 10.  [n] is a [uint64]: the
    sum wraps around, and the wrap is what the code tests for.  The scan
    stops at the first overflow, before it has seen the remaining bytes. *)
Fixpoint parseUintLoop (maxVal n : Z) (s : string) : Z * option numError :=
  match s with
  | EmptyString => (n, None)
  | String c s' =>
      match digitVal c with
      | None => (0, Some ErrSyntax)
      | Some d =>
          if n >=? maxUint64 / 10 + 1 then (maxVal, Some ErrRange)
          else
            let n10 := n * 10 in
            let n1 := (n10 + d) mod 2 ^ 64 in
            if (n1 <? n10) || (n1 >? maxVal) then (maxVal, Some ErrRange)
            else parseUintLoop maxVal n1 s'
      end
  end.

(** [strconv.ParseUint(s, 10, 0)]. *)
Definition ParseUint (s : string) : Z * option numError :=
  match s with
  | EmptyString => (0, Some ErrSyntax)
  | _ => parseUintLoop (2 ^ IntSize - 1) 0 s
  end.

(** [strconv.ParseInt(s, 10, 0)]: a range error keeps the nearest bound. *)
Definition ParseInt (s : string) : Z * option numError :=
  match s with
  | EmptyString => (0, Some ErrSyntax)
  | String c s' =>
      let neg := Ascii.eqb c "-"%char in
      let digits := if Ascii.eqb c "+"%char || neg then s' else s in
      match ParseUint digits with
      | (_, Some ErrSyntax) => (0, Some ErrSyntax)
      | (un, _) =>
          let cutoff := 2 ^ (IntSize - 1) in
          if negb neg && (un >=? cutoff) then (cutoff - 1, Some ErrRange)
          else if neg && (un >? cutoff) then (- cutoff, Some ErrRange)
          else (if neg then - un else un, None)
      end
  end.

(** [strconv.Atoi]. *)
Definition Atoi (s : string) : Z * option numError := ParseInt s.

(** The decimal digits of a natural number, most significant first. *)
Definition digitChar (d : Z) : ascii := ascii_of_N (Z.to_N (48 + d)).

Fixpoint utoa (fuel : nat) (n : Z) (acc : string) : string :=
  match fuel with
  | O => acc
  | S fuel' =>
      let acc' := String (digitChar (n mod 10)) acc in
      if n <? 10 then acc' else utoa fuel' (n / 10) acc'
  end.

(** [strconv.Itoa]. *)
Definition Itoa (n : Z) : string :=
  if n <? 0 then String "-"%char (utoa (S (Z.to_nat (Z.log2 (- n)))) (- n) EmptyString)
  else utoa (S (Z.to_nat (Z.log2 n))) n EmptyString.

(** [strings.Contains], as a proposition: [sub] is a piece of [s]. *)
Definition contains (s sub : string) : Prop :=
  ∃ pre post, s = pre +:+ sub +:+ post.

(** ** Headers *)

(** [http.Header].  The keys the package passes are the constants below;
    each is already in canonical MIME form, so
    [textproto.CanonicalMIMEHeaderKey] leaves it as it is. *)
Abbreviation Header := (gmap string (list string)).

(** [Header.Get]: the first value of the key, or the empty string. *)
Definition Get (h : Header) (key : string) : string :=
  match h !! key with
  | Some (v :: _) => v
  | _ => EmptyString
  end.

(** [Header.Set]: the key gets the single value. *)
Definition Set_ (h : Header) (key value : string) : Header :=
  <[key := [value]]> h.

(** [Header.Add]: the value joins the values of the key. *)
Definition Add (h : Header) (key value : string) : Header :=
  <[key := default [] (h !! key) ++ [value]]> h.

(** [Header.Del]. *)
Definition Del (h : Header) (key : string) : Header := delete key h.

Definition hdrAcceptEncoding : string := "Accept-Encoding".
Definition hdrContentEncoding : string := "Content-Encoding".
Definition hdrContentEncodingGzip : string := "gzip".
Definition hdrContentEncodingDeflate : string := "deflate".
Definition hdrContentLength : string := "Content-Length".
Definition hdrContentType : string := "Content-Type".
Definition hdrTrailer : string := "Trailer".
Definition hdrVary : string := "Vary".

(** [http.StatusOK]. *)
Definition StatusOK : Z := 200.

(** The two package-level tunables. *)
Record tunables := {
  CompressMinLength : Z;
  CompressMaxBuf : Z
}.

Definition defaults : tunables :=
  {| CompressMinLength := 256; CompressMaxBuf := 16 * 1024 |}.

(** ** Negotiation *)

Inductive compType := compNone | compGzip | compDeflate.

Global Instance compType_eq_dec : EqDecision compType.
Proof. solve_decision. Defined.

Definition compStrings : list string :=
  ["none"; hdrContentEncodingGzip; hdrContentEncodingDeflate].

(** [compType(i)] for an index into [compStrings]. *)
Definition compType_of_index (i : nat) : compType :=
  match i with
  | O => compNone
  | 1%nat => compGzip
  | _ => compDeflate
  end.

Definition compIndex (c : compType) : nat :=
  match c with
  | compNone => 0
  | compGzip => 1
  | compDeflate => 2
  end.

(** [compType.String]. *)
Definition compString (c : compType) : string :=
  nth (compIndex c) compStrings EmptyString.

(** The inner loop of [checkAcceptEncoding]: the index of the first name
    equal to [e], counting from [i]. *)
Fixpoint matchName (e : string) (names : list string) (i : nat) : option nat :=
  match names with
  | [] => None
  | name :: names' =>
      if String.eqb name e then Some i else matchName e names' (S i)
  end.

(** The outer loop of [checkAcceptEncoding]. *)
Fixpoint checkEncodings (encs : list string) : compType :=
  match encs with
  | [] => compNone
  | enc :: encs' =>
      match matchName (TrimSpace enc) compStrings 0 with
      | Some i => compType_of_index i
      | None => checkEncodings encs'
      end
  end.

Definition checkAcceptEncoding (hdr : Header) : compType :=
  checkEncodings (Split (Get hdr hdrAcceptEncoding)).

(** ** Eligibility *)

Definition checkHeaderHas (hdr : Header) (key : string) : bool :=
  negb (String.eqb (Get hdr key) EmptyString).

Definition getContentLength (hdr : Header) : Z :=
  fst (Atoi (Get hdr hdrContentLength)).

Definition isCompressableType (hdr : Header) : bool :=
  let mtype := Get hdr hdrContentType in
  HasPrefix mtype "text/"
  || HasPrefix mtype "image/svg"
  || HasPrefix mtype "application/javascript"
  || HasPrefix mtype "application/x-javascript".

Definition checkIsCompressable (cfg : tunables) (code : Z) (hdr : Header) : bool :=
  (code =? StatusOK)
  && (getContentLength hdr >=? CompressMinLength cfg)
  && negb (checkHeaderHas hdr hdrTrailer)
  && negb (checkHeaderHas hdr hdrContentEncoding)
  && isCompressableType hdr.

(** ** The network connection and the codecs *)

Abbreviation bytes := (list Byte.byte).

(** What the connection (the wrapped [http.ResponseWriter]) is asked to do.
    A header commit records the header map as it stands at the call. *)
Inductive event :=
| EvWriteHeader (code : Z) (hdr : Header)
| EvWrite (p : bytes)
| EvFlush.

(** The connection: its header map, which the handler and the wrapper
    share, and the calls it has received, oldest first. *)
Record responseWriter := {
  header : Header;
  calls : list event
}.

(** What one call of a codec method does: the chunks it hands to the writer
    below it, in order, and the error of its own, if any. *)
Record zresult (zstate : Type) := {
  zr_state : zstate;
  zr_out : list bytes;
  zr_err : option error
}.
Arguments zr_state {zstate}.
Arguments zr_out {zstate}.
Arguments zr_err {zstate}.

(** The collaborators the package does not own: the streams of
    [compress/gzip] and [compress/flate], and the connection's answers. *)
Class Env := {
  zstate : Type;
  z_new : compType → Z → zstate;
  z_write : zstate → bytes → zresult zstate;
  z_flush : zstate → zresult zstate;
  z_close : zstate → zresult zstate;
  (** the count and error the connection's [Write] returns *)
  rw_write : responseWriter → bytes → nat * option error;
  (** whether the connection implements [http.Flusher] *)
  rw_flusher : bool
}.

(** [flate.HuffmanOnly] and [flate.BestCompression]. *)
Definition HuffmanOnly : Z := -2.
Definition BestCompression : Z := 9.

(** [bytes.Buffer]: its unread bytes, and how many bytes it holds without
    another allocation. *)
Record buffer := {
  data : bytes;
  cap : Z
}.

Definition bufLen (b : buffer) : Z := Z.of_nat (length (data b)).

(** [Buffer.Grow]: a negative count panics. *)
Definition bufGrow (b : buffer) (n : Z) : option buffer :=
  if n <? 0 then None
  else Some {| data := data b; cap := Z.max (cap b) (bufLen b + n) |}.

(** [Buffer.Write]: always succeeds. *)
Definition bufWrite (b : buffer) (p : bytes) : buffer :=
  {| data := data b ++ p;
     cap := Z.max (cap b) (bufLen b + Z.of_nat (length p)) |}.

Section Sink.
Context `{Env}.

(** ** compressResponseWriter *)

(** The values an [io.Writer] field takes in this package: nil, the
    connection, [&crw.buf], or the value of [crw.z]. *)
Inductive writer := wNil | wResponseWriter | wBuf | wZ.

(** The values of [crw.z]: the nil interface, an interface holding the nil
    pointer a failed constructor returned, or a stream and the writer it
    was opened on. *)
Inductive compressor :=
| zNil
| zNilPtr
| zOpen (st : zstate) (dst : writer).

Record compressResponseWriter := {
  ResponseWriter : responseWriter;
  z : compressor;
  buf : buffer;
  w : writer;
  c : compType;
  level : Z;
  code : Z;
  err : option error;
  wroteHeader : bool;
  isBuffered : bool
}.

(** How a method call ends: it returns, or it panics. *)
Inductive outcome (A : Type) :=
| Done (a : A) (s : compressResponseWriter)
| Panic (s : compressResponseWriter).
Arguments Done {A}.
Arguments Panic {A}.

Definition set_ResponseWriter (x : responseWriter) (s : compressResponseWriter) :=
  {| ResponseWriter := x; z := z s; buf := buf s; w := w s; c := c s;
     level := level s; code := code s; err := err s;
     wroteHeader := wroteHeader s; isBuffered := isBuffered s |}.
Definition set_z (x : compressor) (s : compressResponseWriter) :=
  {| ResponseWriter := ResponseWriter s; z := x; buf := buf s; w := w s; c := c s;
     level := level s; code := code s; err := err s;
     wroteHeader := wroteHeader s; isBuffered := isBuffered s |}.
Definition set_buf (x : buffer) (s : compressResponseWriter) :=
  {| ResponseWriter := ResponseWriter s; z := z s; buf := x; w := w s; c := c s;
     level := level s; code := code s; err := err s;
     wroteHeader := wroteHeader s; isBuffered := isBuffered s |}.
Definition set_w (x : writer) (s : compressResponseWriter) :=
  {| ResponseWriter := ResponseWriter s; z := z s; buf := buf s; w := x; c := c s;
     level := level s; code := code s; err := err s;
     wroteHeader := wroteHeader s; isBuffered := isBuffered s |}.
Definition set_code (x : Z) (s : compressResponseWriter) :=
  {| ResponseWriter := ResponseWriter s; z := z s; buf := buf s; w := w s; c := c s;
     level := level s; code := x; err := err s;
     wroteHeader := wroteHeader s; isBuffered := isBuffered s |}.
Definition set_err (x : option error) (s : compressResponseWriter) :=
  {| ResponseWriter := ResponseWriter s; z := z s; buf := buf s; w := w s; c := c s;
     level := level s; code := code s; err := x;
     wroteHeader := wroteHeader s; isBuffered := isBuffered s |}.
Definition set_wroteHeader (x : bool) (s : compressResponseWriter) :=
  {| ResponseWriter := ResponseWriter s; z := z s; buf := buf s; w := w s; c := c s;
     level := level s; code := code s; err := err s;
     wroteHeader := x; isBuffered := isBuffered s |}.
Definition set_isBuffered (x : bool) (s : compressResponseWriter) :=
  {| ResponseWriter := ResponseWriter s; z := z s; buf := buf s; w := w s; c := c s;
     level := level s; code := code s; err := err s;
     wroteHeader := wroteHeader s; isBuffered := x |}.

(** [crw.Header()] is the connection's own map; this stores into it. *)
Definition set_header (h : Header) (s : compressResponseWriter) :=
  set_ResponseWriter {| header := h; calls := calls (ResponseWriter s) |} s.

(** The connection's methods.  They leave the header map alone. *)
Definition rwWriteHeader (rw : responseWriter) (code : Z) : responseWriter :=
  {| header := header rw; calls := calls rw ++ [EvWriteHeader code (header rw)] |}.

Definition rwWrite (rw : responseWriter) (p : bytes)
  : responseWriter * (nat * option error) :=
  ({| header := header rw; calls := calls rw ++ [EvWrite p] |}, rw_write rw p).

(** [if flusher, ok := crw.ResponseWriter.(http.Flusher); ok { flusher.Flush() }] *)
Definition rwFlush (rw : responseWriter) : responseWriter :=
  if rw_flusher then {| header := header rw; calls := calls rw ++ [EvFlush] |}
  else rw.

Definition flushConn (s : compressResponseWriter) : compressResponseWriter :=
  set_ResponseWriter (rwFlush (ResponseWriter s)) s.

Definition newCompressResponseWriter (rw : responseWriter) (comp : compType) (lvl : Z)
  : compressResponseWriter :=
  {| ResponseWriter := rw; z := zNil; buf := {| data := []; cap := 0 |};
     w := wNil; c := comp; level := lvl; code := 0; err := None;
     wroteHeader := false; isBuffered := false |}.

(** [getCompressor].  Neither constructor writes anything when it opens. *)
Definition getCompressor (comp : compType) (dst : writer) (lvl : Z)
  : compressor * option error :=
  let '(zv, e) :=
    match comp with
    | compGzip =>
        if (lvl <? HuffmanOnly) || (lvl >? BestCompression)
        then (zNilPtr, Some (ErrLevel "gzip" lvl))
        else (zOpen (z_new compGzip lvl) dst, None)
    | compDeflate =>
        if (lvl <? HuffmanOnly) || (lvl >? BestCompression)
        then (zNilPtr, Some (ErrLevel "flate" lvl))
        else (zOpen (z_new compDeflate lvl) dst, None)
    | compNone => (zNil, Some (ErrNew "Unknown compressor type"))
    end in
  (zv, Wrap e "Opening compressor failed").

(** A [Write] on the connection or on the buffer.  [None] is the panic of a
    call through a nil writer; a stream is never opened on itself. *)
Definition lowWrite (dst : writer) (s : compressResponseWriter) (p : bytes)
  : option (compressResponseWriter * (nat * option error)) :=
  match dst with
  | wResponseWriter =>
      let '(rw, res) := rwWrite (ResponseWriter s) p in
      Some (set_ResponseWriter rw s, res)
  | wBuf => Some (set_buf (bufWrite (buf s) p) s, (length p, None))
  | wNil | wZ => None
  end.

(** A stream hands its chunks to the writer below and stops at the first
    error. *)
Fixpoint emit (dst : writer) (s : compressResponseWriter) (chunks : list bytes)
  : option (compressResponseWriter * option error) :=
  match chunks with
  | [] => Some (s, None)
  | ch :: rest =>
      match lowWrite dst s ch with
      | None => None
      | Some (s', (_, Some e)) => Some (s', Some e)
      | Some (s', (_, None)) => emit dst s' rest
      end
  end.

(** A method call on [crw.z]; [None] is the nil dereference. *)
Definition zCall (op : zstate → zresult zstate) (s : compressResponseWriter)
  : option (compressResponseWriter * option error) :=
  match z s with
  | zOpen st dst =>
      let r := op st in
      match emit dst (set_z (zOpen (zr_state r) dst) s) (zr_out r) with
      | None => None
      | Some (s', Some e) => Some (s', Some e)
      | Some (s', None) => Some (s', zr_err r)
      end
  | zNil | zNilPtr => None
  end.

(** [crw.w.Write(p)]. *)
Definition wWrite (s : compressResponseWriter) (p : bytes)
  : option (compressResponseWriter * (nat * option error)) :=
  match w s with
  | wZ =>
      match zCall (fun st => z_write st p) s with
      | None => None
      | Some (s', Some e) => Some (s', (O, Some e))
      | Some (s', None) => Some (s', (length p, None))
      end
  | dst => lowWrite dst s p
  end.

(** The end of [WriteHeader]: the connection gets the code unless the
    response is buffered. *)
Definition forwardHeader (s : compressResponseWriter) (code : Z) : compressResponseWriter :=
  if isBuffered s then s
  else set_ResponseWriter (rwWriteHeader (ResponseWriter s) code) s.

(** The buffered branch of [WriteHeader]. *)
Definition startBuffer (cfg : tunables) (s : compressResponseWriter) (code : Z)
  : option compressResponseWriter :=
  match bufGrow (buf s) (CompressMaxBuf cfg) with
  | None => None
  | Some b => Some (set_isBuffered true (set_code code (set_w wBuf (set_buf b s))))
  end.

(** The header updates of [WriteHeader]. *)
Definition updateHeaders (comp : compType) (hdr : Header) : Header :=
  Set_ (Set_ (Del hdr hdrContentLength) hdrContentEncoding (compString comp))
       hdrVary hdrAcceptEncoding.

Definition WriteHeader (cfg : tunables) (s : compressResponseWriter) (code : Z)
  : outcome unit :=
  if wroteHeader s then Done tt s
  else
    let s := set_w wResponseWriter (set_wroteHeader true s) in
    let hdr := header (ResponseWriter s) in
    if checkIsCompressable cfg code hdr then
      match (if getContentLength hdr <? CompressMaxBuf cfg
             then startBuffer cfg s code else Some s) with
      | None => Panic s
      | Some s =>
          let '(zv, e) := getCompressor (c s) (w s) (level s) in
          let s := set_w wZ (set_err e (set_z zv s)) in
          let s := set_header (updateHeaders (c s) hdr) s in
          Done tt (forwardHeader s code)
      end
    else Done tt (forwardHeader s code).

Definition Write (cfg : tunables) (s : compressResponseWriter) (p : bytes)
  : outcome (nat * option error) :=
  match err s with
  | Some e => Done (O, Some e) s
  | None =>
      match (if wroteHeader s then Done tt s else WriteHeader cfg s StatusOK) with
      | Panic s' => Panic s'
      | Done _ s1 =>
          match wWrite s1 p with
          | None => Panic s1
          | Some (s2, (n, e)) =>
              let e' := Wrap e "Write in compressResponseWriter failed" in
              Done (n, e') (set_err e' s2)
          end
      end
  end.

Definition Flush (s : compressResponseWriter) : outcome unit :=
  match err s with
  | Some _ => Done tt s
  | None =>
      match z s with
      | zNil => Done tt (flushConn s)
      | _ =>
          match zCall z_flush s with
          | None => Panic s
          | Some (s', e) =>
              Done tt (flushConn
                         (set_err (Wrap e "Flushing compressResponseWriter failed") s'))
          end
      end
  end.

(** [crw.buf.WriteTo(crw.ResponseWriter)]: one [Write] of all unread bytes,
    none when the buffer is empty; a count above the length panics. *)
Definition bufWriteTo (s : compressResponseWriter) : outcome (option error) :=
  let b := buf s in
  match data b with
  | [] => Done None s
  | _ :: _ =>
      let '(rw, (m, e)) := rwWrite (ResponseWriter s) (data b) in
      let s := set_ResponseWriter rw s in
      if (length (data b) <? m)%nat then Panic s
      else
        let s := set_buf {| data := drop m (data b); cap := cap b |} s in
        match e with
        | Some e => Done (Some e) s
        | None =>
            if (m =? length (data b))%nat then Done None s
            else Done (Some ErrShortWrite) s
        end
  end.

(** [Close].  The deferred flush runs last on every way out that follows
    its registration, a panic included. *)
Definition Close (s : compressResponseWriter) : outcome (option error) :=
  match err s with
  | Some e => Done (Some e) s
  | None =>
      match z s with
      | zNil => Done None (flushConn s)
      | _ =>
          match zCall z_close s with
          | None => Panic (flushConn s)
          | Some (s, e) =>
              let s := set_err (Wrap e "Closing compressResponseWriter failed") s in
              match err s with
              | Some e => Done (Some e) (flushConn s)
              | None =>
                  if isBuffered s then
                    let s := set_header
                               (Set_ (header (ResponseWriter s)) hdrContentLength
                                     (Itoa (bufLen (buf s)))) s in
                    let s := set_ResponseWriter
                               (rwWriteHeader (ResponseWriter s) (code s)) s in
                    match bufWriteTo s with
                    | Panic s => Panic (flushConn s)
                    | Done e s => Done e (flushConn (set_err e s))
                    end
                  else Done None (flushConn s)
              end
          end
      end
  end.

(** ** The states the wrapper goes through *)

(** [crw.z] after an eligible commit: a stream opened on the buffer
    (buffered) or on the connection (streamed), unless opening it failed
    and left the error. *)
Definition opened (s : compressResponseWriter) : Prop :=
  match z s with
  | zOpen _ dst => dst = if isBuffered s then wBuf else wResponseWriter
  | zNil | zNilPtr => err s ≠ None
  end.

(** What holds of the wrapper at every point of its life: before the
    header is written it is as [newCompressResponseWriter] left it, but for
    the connection; afterwards it either passes through or writes into
    [crw.z]. *)
Definition wellFormed (s : compressResponseWriter) : Prop :=
  if wroteHeader s then
    (w s = wResponseWriter ∧ z s = zNil ∧ isBuffered s = false)
    ∨ (w s = wZ ∧ opened s)
  else s = newCompressResponseWriter (ResponseWriter s) (c s) (level s).

(** The codec and the level are fixed when the wrapper is made. *)
Definition sameConfig (s s' : compressResponseWriter) : Prop :=
  c s' = c s ∧ level s' = level s.

(** What [crw.w.Write] does once the header is written: with no stream it
    is one write on the connection; with a stream it is the stream's
    chunks handed to the buffer or to the connection. *)
Definition forwarded (s1 : compressResponseWriter) (p : bytes)
    (o : outcome (nat * option error)) : Prop :=
  match z s1 with
  | zOpen st dst =>
      w s1 = wZ
      ∧ dst = (if isBuffered s1 then wBuf else wResponseWriter)
      ∧ ∃ s2 e0,
          emit dst (set_z (zOpen (zr_state (z_write st p)) dst) s1)
               (zr_out (z_write st p)) = Some (s2, e0)
          ∧ let e := Wrap (match e0 with
                           | Some e => Some e
                           | None => zr_err (z_write st p)
                           end) "Write in compressResponseWriter failed" in
            o = Done (match e with Some _ => O | None => length p end, e)
                     (set_err e s2)
  | zNil | zNilPtr =>
      w s1 = wResponseWriter
      ∧ let res := rw_write (ResponseWriter s1) p in
        let e := Wrap (snd res) "Write in compressResponseWriter failed" in
        o = Done (fst res, e)
              (set_err e
                 (set_ResponseWriter
                    {| header := header (ResponseWriter s1);
                       calls := calls (ResponseWriter s1) ++ [EvWrite p] |} s1))
  end.

(** ** Handlers and the middleware *)

(** The state a call leaves behind, however it ends. *)
Definition after {A : Type} (o : outcome A) : compressResponseWriter :=
  match o with
  | Done _ s => s
  | Panic s => s
  end.

(** The calls a handler can make on the [http.ResponseWriter] it is given.
    [callHeader] is a change made through the map [Header()] returns. *)
Inductive call :=
| callHeader (f : Header → Header)
| callWriteHeader (code : Z)
| callWrite (p : bytes)
| callFlush
| callClose.

Definition step (cfg : tunables) (s : compressResponseWriter) (op : call)
  : compressResponseWriter :=
  match op with
  | callHeader f => set_header (f (header (ResponseWriter s))) s
  | callWriteHeader code => after (WriteHeader cfg s code)
  | callWrite p => after (Write cfg s p)
  | callFlush => after (Flush s)
  | callClose => after (Close s)
  end.

(** The wrapper after a sequence of calls. *)
Definition run (cfg : tunables) (ops : list call) (s : compressResponseWriter)
  : compressResponseWriter :=
  fold_left (step cfg) ops s.

(** A handler, as the decisions it takes on what it reads and on what its
    writes return.  [hFlush] flushes when the writer is an [http.Flusher]. *)
Inductive handler :=
| hReturn
| hPanic
| hHeader (f : Header → Header) (k : handler)
| hRead (k : Header → handler)
| hWriteHeader (code : Z) (k : handler)
| hWrite (p : bytes) (k : nat * option error → handler)
| hFlush (k : handler).

(** [h.ServeHTTP(w, r)] on the connection itself; the flag tells a panic. *)
Fixpoint serveConn (h : handler) (rw : responseWriter) : responseWriter * bool :=
  match h with
  | hReturn => (rw, false)
  | hPanic => (rw, true)
  | hHeader f k => serveConn k {| header := f (header rw); calls := calls rw |}
  | hRead k => serveConn (k (header rw)) rw
  | hWriteHeader code k => serveConn k (rwWriteHeader rw code)
  | hWrite p k => let '(rw', res) := rwWrite rw p in serveConn (k res) rw'
  | hFlush k => serveConn k (rwFlush rw)
  end.

(** [h.ServeHTTP(crw, r)]. *)
Fixpoint serveCrw (cfg : tunables) (h : handler) (s : compressResponseWriter)
  : compressResponseWriter * bool :=
  match h with
  | hReturn => (s, false)
  | hPanic => (s, true)
  | hHeader f k => serveCrw cfg k (set_header (f (header (ResponseWriter s))) s)
  | hRead k => serveCrw cfg (k (header (ResponseWriter s))) s
  | hWriteHeader code k =>
      match WriteHeader cfg s code with
      | Done _ s' => serveCrw cfg k s'
      | Panic s' => (s', true)
      end
  | hWrite p k =>
      match Write cfg s p with
      | Done res s' => serveCrw cfg (k res) s'
      | Panic s' => (s', true)
      end
  | hFlush k =>
      match Flush s with
      | Done _ s' => serveCrw cfg k s'
      | Panic s' => (s', true)
      end
  end.

(** A request, as far as the middleware reads it. *)
Record Request := {
  reqHeader : Header
}.

(** What serving one request leaves: the connection, whether the handler
    (or the deferred close) panicked, and what was logged. *)
Record served := {
  conn : responseWriter;
  panicked : bool;
  logged : list error
}.

(** The handler [New] returns, applied to a connection and a request. *)
Definition New (cfg : tunables) (h : Request → handler)
    (rw : responseWriter) (r : Request) : served :=
  let comp := checkAcceptEncoding (reqHeader r) in
  if decide (comp = compNone) then
    let '(rw', p) := serveConn (h r) rw in
    {| conn := rw'; panicked := p; logged := [] |}
  else
    let crw := newCompressResponseWriter rw comp BestCompression in
    let '(s, p) := serveCrw cfg (h r) crw in
    match Close s with
    | Done e s' =>
        {| conn := ResponseWriter s'; panicked := p; logged := option_list e |}
    | Panic s' =>
        {| conn := ResponseWriter s'; panicked := true; logged := [] |}
    end.

End Sink.

Arguments Done {_ A}.
Arguments Panic {_ A}.

(** Projections of updated records. *)
Ltac simpl_crw :=
  cbn [ResponseWriter z buf w c level code err wroteHeader isBuffered
       set_ResponseWriter set_z set_buf set_w set_code set_err
       set_wroteHeader set_isBuffered set_header header calls data cap
       rwWriteHeader Wrap after] in *.

(** ** What the connection sees *)

(** The header commits among the calls. *)
Fixpoint countCommits (evs : list event) : nat :=
  match evs with
  | [] => O
  | EvWriteHeader _ _ :: evs' => S (countCommits evs')
  | _ :: evs' => countCommits evs'
  end.

(** Whether every [Write] among the calls comes after a header commit;
    [sent] tells whether one came before the calls. *)
Fixpoint bodyAfterCommit (sent : bool) (evs : list event) : bool :=
  match evs with
  | [] => true
  | EvWriteHeader _ _ :: evs' => bodyAfterCommit true evs'
  | EvWrite _ :: evs' => sent && bodyAfterCommit sent evs'
  | EvFlush :: evs' => bodyAfterCommit sent evs'
  end.

(** Calls that keep the order: they hold a commit exactly when the wrapper
    passes from header not sent ([b]) to header sent ([b']), it never passes
    back, and no write comes ahead of the commit. *)
Definition orderly (b : bool) (evs : list event) (b' : bool) : Prop :=
  countCommits evs = (if b' && negb b then 1 else 0)%nat
  ∧ (b = true → b' = true)
  ∧ bodyAfterCommit b evs = true.

Definition isClose (op : call) : bool :=
  match op with callClose => true | _ => false end.

Section SinkTrace.
Context `{Env}.

(** Whether [WriteHeader] has handed the status to the connection: it has
    once the header is written, unless the response is buffered and the
    commit left to [Close]. *)
Definition headerSent (s : compressResponseWriter) : bool :=
  wroteHeader s && negb (isBuffered s).

(** What a stream makes of a sequence of writes: its state, its output
    and its error.  Nothing is fed to it after a write has failed. *)
Fixpoint feed (st : zstate) (ps : list bytes) : zstate * bytes * option error :=
  match ps with
  | [] => (st, [], None)
  | p :: ps' =>
      let r := z_write st p in
      match zr_err r with
      | Some e => (zr_state r, concat (zr_out r), Some e)
      | None =>
          let '(st', out, e) := feed (zr_state r) ps' in
          (st', concat (zr_out r) ++ out, e)
      end
  end.

End SinkTrace.

(** ** The specification's wording, where the code differs from it *)

(** "An absent or unparseable Content-Length header is treated as 0." *)
Definition claimedContentLength (hdr : Header) : Z :=
  match Atoi (Get hdr hdrContentLength) with
  | (n, None) => n
  | (_, Some _) => 0
  end.

Definition claimedEligible (cfg : tunables) (code : Z) (hdr : Header) : bool :=
  (code =? StatusOK)
  && (claimedContentLength hdr >=? CompressMinLength cfg)
  && isCompressableType hdr
  && negb (checkHeaderHas hdr hdrTrailer)
  && negb (checkHeaderHas hdr hdrContentEncoding).

(** The declared length as [getContentLength] yields it, said without the
    scan: the parsed value; 0 when [Atoi] reports a syntax error; the bound
    of [int] on the side of the sign when it reports a range error. *)
Definition declaredLength (v : string) : Z :=
  match snd (Atoi v) with
  | None => fst (Atoi v)
  | Some ErrSyntax => 0
  | Some ErrRange => if HasPrefix v "-" then - 2 ^ 63 else 2 ^ 63 - 1
  end.

(** The allow-list of content-type prefixes. *)
Definition allowedTypes : list string :=
  ["text/"; "image/svg"; "application/javascript"; "application/x-javascript"].

(** "The first token in the client-listed order that exactly matches a
    registered codec name from gzip, deflate." *)
Fixpoint claimedNegotiate (tokens : list string) : compType :=
  match tokens with
  | [] => compNone
  | t :: rest =>
      if String.eqb (TrimSpace t) "gzip" then compGzip
      else if String.eqb (TrimSpace t) "deflate" then compDeflate
      else claimedNegotiate rest
  end.

(** The tokens listed ahead of the first "none". *)
Fixpoint untilNone (tokens : list string) : list string :=
  match tokens with
  | [] => []
  | t :: rest =>
      if String.eqb "none" (TrimSpace t) then [] else t :: untilNone rest
  end.

(** ** A small world to run the definitions in *)

(** A codec that stores: it passes each write on as one chunk, answers a
    flush with a marker byte and a close with a two-byte trailer, and
    refuses writes after the close.  The connection takes [limit] writes
    and fails every later one. *)
Definition toyWrite (closed : bool) (p : bytes) : zresult bool :=
  if closed
  then {| zr_state := closed; zr_out := []; zr_err := Some (ErrExt 1) |}
  else {| zr_state := closed; zr_out := [p]; zr_err := None |}.

Fixpoint countWrites (evs : list event) : nat :=
  match evs with
  | [] => O
  | EvWrite _ :: evs' => S (countWrites evs')
  | _ :: evs' => countWrites evs'
  end.

Definition toyEnv (limit : nat) (flusher : bool) : Env :=
  {| zstate := bool;
     z_new := λ _ _, false;
     z_write := toyWrite;
     z_flush := λ st, {| zr_state := st; zr_out := [[Byte.x00]]; zr_err := None |};
     z_close := λ _, {| zr_state := true; zr_out := [[Byte.xff; Byte.xff]];
                        zr_err := None |};
     rw_write := λ rw p,
       if (countWrites (calls rw) <? limit)%nat then (length p, None)
       else (O, Some (ErrExt 0));
     rw_flusher := flusher |}.

Definition textHeader (len : string) : Header :=
  Set_ (Set_ ∅ hdrContentType "text/plain") hdrContentLength len.

Definition freshConn (h : Header) : responseWriter :=
  {| header := h; calls := [] |}.

Definition hello : bytes := [Byte.x68; Byte.x65; Byte.x6c; Byte.x6c; Byte.x6f].

(** * Properties *)

(** ** Library facts *)

Lemma HasPrefix_app (s pre : string) :
  HasPrefix s pre = true ↔ ∃ rest, s = pre +:+ rest.
Proof.
  revert s. induction pre as [|a pre IH]; intros s; simpl.
  - split; [intros _; by exists s | done].
  - destruct s as [|b s].
    + split; [done | intros [rest Hr]; discriminate].
    + rewrite andb_true_iff, Ascii.eqb_eq, IH. split.
      * intros [-> [rest ->]]. by exists rest.
      * intros [rest Hr]. injection Hr as -> ->. eauto.
Qed.

Lemma sapp_cons (c : ascii) (a b : string) :
  String c a +:+ b = String c (a +:+ b).
Proof. reflexivity. Qed.

Lemma sapp_nil_r (a : string) : a +:+ "" = a.
Proof. induction a as [|x a IH]; [done|]. by rewrite sapp_cons, IH. Qed.

Lemma sapp_assoc (a b c : string) : (a +:+ b) +:+ c = a +:+ (b +:+ c).
Proof. induction a as [|x a IH]; [done|]. by rewrite !sapp_cons, IH. Qed.

Lemma rev_app_sapp (a : string) : ∀ c,
  String.rev_app a c = String.rev_app a "" +:+ c.
Proof.
  induction a as [|x a IH]; intros c; cbn [String.rev_app]; [done|].
  by rewrite (IH (String x c)), (IH (String x "")), sapp_assoc.
Qed.

Lemma rev_cons (x : ascii) (a : string) :
  String.rev (String x a) = String.rev a +:+ String x "".
Proof. unfold String.rev. cbn [String.rev_app]. apply rev_app_sapp. Qed.

Lemma rev_sapp (a b : string) :
  String.rev (a +:+ b) = String.rev b +:+ String.rev a.
Proof.
  induction a as [|x a IH].
  - by rewrite sapp_nil_r.
  - by rewrite sapp_cons, !rev_cons, IH, sapp_assoc.
Qed.

Lemma rev_rev (s : string) : String.rev (String.rev s) = s.
Proof.
  induction s as [|x s IH]; [done|]. by rewrite rev_cons, rev_sapp, IH.
Qed.

Lemma trimLeftSpace_suffix (n : nat) : ∀ s,
  (String.length s ≤ n)%nat → ∃ a, s = a +:+ trimLeftSpace s.
Proof.
  induction n as [|n IH]; intros s Hlen.
  { destruct s; [by exists ""|cbn in Hlen; lia]. }
  destruct s as [|b0 s1]; [by exists ""|]. cbn [trimLeftSpace].
  destruct (isSpace1 b0).
  { destruct (IH s1) as [a Ha]; [cbn in Hlen; lia|].
    exists (String b0 a). by rewrite sapp_cons, <-Ha. }
  destruct s1 as [|b1 s2]; [by exists ""|].
  destruct (isSpace2 b0 b1).
  { destruct (IH s2) as [a Ha]; [cbn in Hlen; lia|].
    exists (String b0 (String b1 a)). by rewrite !sapp_cons, <-Ha. }
  destruct s2 as [|b2 s3]; [by exists ""|].
  destruct (isSpace3 b0 b1 b2); [|by exists ""].
  destruct (IH s3) as [a Ha]; [cbn in Hlen; lia|].
  exists (String b0 (String b1 (String b2 a))). by rewrite !sapp_cons, <-Ha.
Qed.

Lemma trimRevSpace_suffix (n : nat) : ∀ r,
  (String.length r ≤ n)%nat → ∃ a, r = a +:+ trimRevSpace r.
Proof.
  induction n as [|n IH]; intros r Hlen.
  { destruct r; [by exists ""|cbn in Hlen; lia]. }
  destruct r as [|c0 r1]; [by exists ""|]. cbn [trimRevSpace].
  destruct (isSpace1 c0).
  { destruct (IH r1) as [a Ha]; [cbn in Hlen; lia|].
    exists (String c0 a). by rewrite sapp_cons, <-Ha. }
  destruct r1 as [|c1 r2]; [by exists ""|].
  destruct (isSpace2 c1 c0).
  { destruct (IH r2) as [a Ha]; [cbn in Hlen; lia|].
    exists (String c0 (String c1 a)). by rewrite !sapp_cons, <-Ha. }
  destruct r2 as [|c2 r3]; [by exists ""|].
  destruct (isSpace3 c2 c1 c0); [|by exists ""].
  destruct (IH r3) as [a Ha]; [cbn in Hlen; lia|].
  exists (String c0 (String c1 (String c2 a))). by rewrite !sapp_cons, <-Ha.
Qed.

(** A trimmed string is a piece of the string it was trimmed from. *)
Lemma TrimSpace_contains (s : string) : contains s (TrimSpace s).
Proof.
  unfold TrimSpace.
  destruct (trimLeftSpace_suffix _ s (le_n _)) as [a Ha].
  destruct (trimRevSpace_suffix _ (String.rev (trimLeftSpace s)) (le_n _))
    as [x Hx].
  exists a, (String.rev x). rewrite <-rev_sapp, <-Hx, rev_rev. done.
Qed.

Lemma contains_trans (s t u : string) :
  contains s t → contains t u → contains s u.
Proof.
  intros (p & q & ->) (p' & q' & ->). exists (p +:+ p'), (q' +:+ q).
  by rewrite !sapp_assoc.
Qed.

Lemma contains_cons (c : ascii) (s t : string) :
  contains s t → contains (String c s) t.
Proof. intros (p & q & ->). by exists (String c p), q. Qed.

(** The first piece of a split is a prefix, each piece a piece. *)
Lemma Split_contains (s : string) :
  (∃ t ts b, Split s = t :: ts ∧ s = t +:+ b)
  ∧ ∀ t, t ∈ Split s → contains s t.
Proof.
  induction s as [|c s [(t0 & ts & b & Hsp & Hpre) IH]].
  { split; [by exists "", [], ""|].
    intros t ->%list_elem_of_singleton. by exists "", "". }
  cbn [Split]. destruct (Ascii.eqb c ",").
  - split; [by exists "", (Split s), (String c s)|].
    intros t [->|Ht]%elem_of_cons; [by exists "", (String c s)|].
    by apply contains_cons, IH.
  - rewrite Hsp in *. split.
    + exists (String c t0), ts, b. by rewrite sapp_cons, <-Hpre.
    + intros t [->|Ht]%elem_of_cons.
      * exists "", b. by rewrite Hpre at 1.
      * apply contains_cons, IH. by right.
Qed.

Lemma token_contains (v t name : string) :
  t ∈ Split v → TrimSpace t = name → contains v name.
Proof.
  intros Ht <-. eapply contains_trans; [by apply Split_contains|].
  apply TrimSpace_contains.
Qed.

Lemma parseUintLoop_err (maxVal : Z) (s : string) : ∀ n v e,
  parseUintLoop maxVal n s = (v, Some e) →
  match e with ErrSyntax => v = 0 | ErrRange => v = maxVal end.
Proof.
  induction s as [|ch s IH]; intros n v e; simpl; [done|].
  destruct (digitVal ch) as [d|]; [|by intros [= <- <-]].
  destruct (n >=? maxUint64 / 10 + 1); [by intros [= <- <-]|].
  destruct (_ || _); [by intros [= <- <-]|]. apply IH.
Qed.

Lemma ParseUint_err (s : string) (v : Z) (e : numError) :
  ParseUint s = (v, Some e) →
  match e with ErrSyntax => v = 0 | ErrRange => v = 2 ^ IntSize - 1 end.
Proof.
  unfold ParseUint. destruct s; [by intros [= <- <-]|]. apply parseUintLoop_err.
Qed.

(** What [Atoi] returns next to an error: 0 for a syntax error, the bound
    on the side of the sign for a range error. *)
Lemma Atoi_err (s : string) (v : Z) (e : numError) :
  Atoi s = (v, Some e) →
  match e with
  | ErrSyntax => v = 0
  | ErrRange => v = if HasPrefix s "-" then - 2 ^ 63 else 2 ^ 63 - 1
  end.
Proof.
  unfold Atoi, ParseInt. destruct s as [|ch s]; [by intros [= <- <-]|].
  assert (HasPrefix (String ch s) "-" = Ascii.eqb ch "-"%char) as ->.
  { cbn [HasPrefix]. rewrite andb_true_r. apply Ascii.eqb_sym. }
  destruct (ParseUint _) as [un [[]|]] eqn:Hu.
  - by intros [= <- <-].
  - apply ParseUint_err in Hu. subst un.
    destruct (Ascii.eqb ch "-"); simpl; by intros [= <- <-].
  - destruct (Ascii.eqb ch "-"); simpl.
    + destruct (un >? _); by intros [= <- <-].
    + destruct (un >=? _); by intros [= <- <-].
Qed.

Lemma digitChar_spec (d : Z) :
  0 ≤ d ≤ 9 →
  digitVal (digitChar d) = Some d
  ∧ Ascii.eqb (digitChar d) "+"%char = false
  ∧ Ascii.eqb (digitChar d) "-"%char = false.
Proof.
  intros Hd.
  assert (d = 0 ∨ d = 1 ∨ d = 2 ∨ d = 3 ∨ d = 4 ∨ d = 5 ∨ d = 6 ∨ d = 7
          ∨ d = 8 ∨ d = 9) as Hcases by lia.
  repeat (destruct Hcases as [-> | Hcases]; [done|]). by subst.
Qed.

Lemma parseUintLoop_digit (maxVal n d : Z) (s : string) :
  0 ≤ d ≤ 9 → 0 ≤ n → n * 10 + d ≤ maxVal → maxVal ≤ maxUint64 →
  parseUintLoop maxVal n (String (digitChar d) s)
  = parseUintLoop maxVal (n * 10 + d) s.
Proof.
  intros Hd Hn Hle Hmax. cbn [parseUintLoop].
  destruct (digitChar_spec d Hd) as (-> & _).
  unfold maxUint64 in *.
  assert ((n >=? (2 ^ 64 - 1) / 10 + 1) = false) as ->.
  { rewrite Z.geb_leb. apply Z.leb_gt.
    change ((2 ^ 64 - 1) / 10 + 1) with 1844674407370955162.
    change (2 ^ 64) with 18446744073709551616 in *. lia. }
  cbn zeta.
  assert ((n * 10 + d) mod 2 ^ 64 = n * 10 + d) as ->.
  { apply Z.mod_small. change (2 ^ 64) with 18446744073709551616 in *. lia. }
  assert ((n * 10 + d <? n * 10) = false) as -> by (apply Z.ltb_ge; lia).
  assert ((n * 10 + d >? maxVal) = false) as ->.
  { rewrite Z.gtb_ltb. apply Z.ltb_ge. lia. }
  done.
Qed.

Lemma parseUintLoop_utoa (maxVal : Z) (fuel : nat) : ∀ n acc,
  0 ≤ n < 2 ^ Z.of_nat fuel → n ≤ maxVal → maxVal ≤ maxUint64 →
  parseUintLoop maxVal 0 (utoa fuel n acc) = parseUintLoop maxVal n acc.
Proof.
  induction fuel as [|fuel IH]; intros n acc Hn Hle Hmax.
  { cbn in *. by replace n with 0 by lia. }
  cbn [utoa]. cbn zeta.
  assert (0 ≤ n mod 10 ≤ 9) as Hd by (pose proof (Z.mod_pos_bound n 10); lia).
  destruct (n <? 10) eqn:Hlt.
  - apply Z.ltb_lt in Hlt. rewrite Z.mod_small by lia.
    rewrite parseUintLoop_digit by lia. by rewrite Z.mul_0_l, Z.add_0_l.
  - apply Z.ltb_ge in Hlt.
    assert (n = n / 10 * 10 + n mod 10) as Hdiv by (pose proof (Z.div_mod n 10); lia).
    rewrite IH.
    + rewrite parseUintLoop_digit by lia. by rewrite <-Hdiv.
    + rewrite Nat2Z.inj_succ, Z.pow_succ_r in Hn by lia. lia.
    + lia.
    + done.
Qed.

Lemma utoa_head (fuel : nat) : ∀ n acc,
  ∃ d rest, 0 ≤ d ≤ 9 ∧ utoa (S fuel) n acc = String (digitChar d) rest.
Proof.
  induction fuel as [|fuel IH]; intros n acc;
    assert (0 ≤ n mod 10 ≤ 9) as Hd by (pose proof (Z.mod_pos_bound n 10); lia).
  - exists (n mod 10), acc. split; [done|]. cbn. by destruct (n <? 10).
  - cbn [utoa]. cbn zeta. destruct (n <? 10); [by eexists _, _|]. apply IH.
Qed.

(** [Atoi] reads back what [Itoa] writes. *)
Lemma Atoi_Itoa (n : Z) : 0 ≤ n < 2 ^ 63 → Atoi (Itoa n) = (n, None).
Proof.
  intros Hn. unfold Itoa.
  assert ((n <? 0) = false) as -> by (apply Z.ltb_ge; lia).
  set (fuel := Z.to_nat (Z.log2 n)).
  assert (0 ≤ n < 2 ^ Z.of_nat (S fuel)) as Hfuel.
  { subst fuel. rewrite Nat2Z.inj_succ, Z2Nat.id by apply Z.log2_nonneg.
    destruct (decide (n = 0)) as [->|]; [done|].
    pose proof (Z.log2_spec n). lia. }
  assert (2 ^ 63 ≤ maxUint64) as Hmax by done.
  pose proof (parseUintLoop_utoa (2 ^ IntSize - 1) (S fuel) n "" Hfuel) as Hparse.
  destruct (utoa_head fuel n "") as (d & rest & Hd & Hhead).
  rewrite Hhead in *. unfold Atoi, ParseInt, ParseUint.
  destruct (digitChar_spec d Hd) as (_ & -> & ->). cbn [orb].
  rewrite Hparse; [|unfold IntSize; change (2 ^ 64) with 18446744073709551616;
                    change (2 ^ 63) with 9223372036854775808 in Hn; lia
                   |done].
  cbn [parseUintLoop negb andb].
  assert ((n >=? 2 ^ (IntSize - 1)) = false) as ->.
  { rewrite Z.geb_leb. apply Z.leb_gt. unfold IntSize. change (64 - 1) with 63.
    lia. }
  done.
Qed.

Lemma getContentLength_declared (hdr : Header) :
  getContentLength hdr = declaredLength (Get hdr hdrContentLength).
Proof.
  unfold getContentLength, declaredLength.
  destruct (Atoi _) as [v [e|]] eqn:Ha; simpl; [|done].
  apply Atoi_err in Ha. by destruct e.
Qed.

Lemma Get_Del (hdr : Header) (key : string) : Get (Del hdr key) key = "".
Proof. unfold Get, Del. by rewrite lookup_delete_eq. Qed.

Lemma checkHeaderHas_false (hdr : Header) (key : string) :
  negb (checkHeaderHas hdr key) = true ↔ Get hdr key = "".
Proof.
  unfold checkHeaderHas. rewrite negb_involutive. apply String.eqb_eq.
Qed.

Lemma isCompressableType_allowed (hdr : Header) :
  isCompressableType hdr = true ↔
  ∃ pre rest, pre ∈ allowedTypes ∧ Get hdr hdrContentType = pre +:+ rest.
Proof.
  unfold isCompressableType, allowedTypes.
  rewrite !orb_true_iff, !HasPrefix_app. split.
  - intros [[[[r Hr]|[r Hr]]|[r Hr]]|[r Hr]]; eexists _, r;
      (split; [|exact Hr]); set_solver.
  - intros (pre & r & Hin & Hr).
    rewrite !elem_of_cons, elem_of_nil in Hin.
    destruct Hin as [->|[->|[->|[->|[]]]]]; eauto.
Qed.

(** ** Eligibility *)

(** C1, as amended.  [checkIsCompressable] answers true exactly when the
    five conditions hold together: the status code is 200; the declared
    content length is at least the configured minimum, where the declared
    length is 0 for an absent header or one [Atoi] rejects for its syntax
    and the bound of [int] for a decimal value out of range; the content
    type starts with a prefix of the allow-list; the Trailer header has no
    value; the Content-Encoding header has no value. *)
Theorem checkIsCompressable_conditions (cfg : tunables) (code : Z) (hdr : Header) :
  (checkIsCompressable cfg code hdr = true ↔
     code = StatusOK
     ∧ CompressMinLength cfg ≤ declaredLength (Get hdr hdrContentLength)
     ∧ (∃ pre rest, pre ∈ allowedTypes ∧ Get hdr hdrContentType = pre +:+ rest)
     ∧ Get hdr hdrTrailer = ""
     ∧ Get hdr hdrContentEncoding = "")
  ∧ declaredLength (Get (Del hdr hdrContentLength) hdrContentLength) = 0.
Proof.
  split; [|by rewrite Get_Del].
  unfold checkIsCompressable.
  rewrite !andb_true_iff, !checkHeaderHas_false, isCompressableType_allowed,
    getContentLength_declared, Z.eqb_eq, Z.geb_le.
  tauto.
Qed.

(** C1, as worded, fails: a Content-Length of twenty nines does not parse
    (range error), yet it counts as the largest [int], not as 0, and the
    response is eligible. *)
Lemma checkIsCompressable_range_error :
  let hdr := textHeader "99999999999999999999" in
  snd (Atoi (Get hdr hdrContentLength)) = Some ErrRange
  ∧ getContentLength hdr = 9223372036854775807
  ∧ checkIsCompressable defaults StatusOK hdr = true
  ∧ claimedEligible defaults StatusOK hdr = false.
Proof. vm_compute. done. Qed.

(** ** Negotiation *)

Lemma matchName_compStrings (e : string) :
  matchName e compStrings 0 =
    if String.eqb "none" e then Some 0%nat
    else if String.eqb "gzip" e then Some 1%nat
    else if String.eqb "deflate" e then Some 2%nat
    else None.
Proof. reflexivity. Qed.

(** The code agrees with the negotiation over gzip and deflate on the
    tokens that come before the first "none". *)
Lemma checkEncodings_until_none (encs : list string) :
  checkEncodings encs = claimedNegotiate (untilNone encs).
Proof.
  induction encs as [|t encs IH]; [done|].
  cbn [checkEncodings untilNone].
  rewrite matchName_compStrings.
  destruct (String.eqb "none" (TrimSpace t)) eqn:Hn; [done|].
  cbn [claimedNegotiate].
  rewrite (String.eqb_sym (TrimSpace t) "gzip"),
    (String.eqb_sym (TrimSpace t) "deflate").
  destruct (String.eqb "gzip" _); [done|].
  by destruct (String.eqb "deflate" _).
Qed.

Lemma untilNone_subset (encs : list string) (t : string) :
  t ∈ untilNone encs → t ∈ encs.
Proof.
  induction encs as [|a encs IH]; cbn [untilNone]; [done|].
  destruct (String.eqb _ _); [by intros ?%elem_of_nil|].
  intros [->|Ht]%elem_of_cons; [by left|]. right. by apply IH.
Qed.

Lemma claimedNegotiate_none (encs : list string) :
  (∀ t, t ∈ encs → TrimSpace t ≠ "gzip" ∧ TrimSpace t ≠ "deflate") →
  claimedNegotiate encs = compNone.
Proof.
  induction encs as [|t encs IH]; intros Hall; [done|].
  cbn [claimedNegotiate].
  destruct (Hall t) as [Hg Hd]; [by left|].
  apply String.eqb_neq in Hg, Hd. rewrite Hg, Hd.
  apply IH. intros t' Ht'. apply Hall. by right.
Qed.

Lemma checkEncodings_none (encs : list string) :
  (∀ t, t ∈ encs → TrimSpace t ≠ "gzip" ∧ TrimSpace t ≠ "deflate") →
  checkEncodings encs = compNone.
Proof.
  intros Hall. rewrite checkEncodings_until_none.
  apply claimedNegotiate_none. intros t Ht. apply Hall.
  by apply untilNone_subset.
Qed.

(** C3 fails on the code.  A client that lists "none" ahead of "gzip" does
    list gzip as a trimmed token, and negotiation over gzip and deflate
    gives Gzip; [checkAcceptEncoding] matches "none" in [compStrings] first
    and answers [compNone]. *)
Theorem checkAcceptEncoding_none_before_gzip :
  let hdr : Header := Set_ ∅ hdrAcceptEncoding "none, gzip" in
  TrimSpace <$> Split (Get hdr hdrAcceptEncoding) = ["none"; "gzip"]
  ∧ claimedNegotiate (Split (Get hdr hdrAcceptEncoding)) = compGzip
  ∧ checkAcceptEncoding hdr = compNone.
Proof. vm_compute. done. Qed.

(** ** The response writer *)

Section SinkProperties.
Context `{Env}.

#[local] Arguments checkIsCompressable : simpl never.
#[local] Arguments getContentLength : simpl never.
#[local] Arguments updateHeaders : simpl never.
#[local] Arguments Itoa : simpl never.
#[local] Arguments Z.ltb : simpl never.
#[local] Arguments Z.gtb : simpl never.
#[local] Arguments Z.max : simpl never.
#[local] Arguments Z.add : simpl never.

(** *** What the low-level writes touch *)

Lemma lowWrite_shape dst s p s' r :
  lowWrite dst s p = Some (s', r) →
  ∃ rw b, s' = set_ResponseWriter rw (set_buf b s).
Proof.
  destruct dst; simpl; intros Hw; simplify_eq.
  - exists (fst (rwWrite (ResponseWriter s) p)), (buf s). by destruct s.
  - exists (ResponseWriter s), (bufWrite (buf s) p). by destruct s.
Qed.

Lemma emit_shape dst chunks : ∀ s s' e,
  emit dst s chunks = Some (s', e) →
  ∃ rw b, s' = set_ResponseWriter rw (set_buf b s).
Proof.
  induction chunks as [|ch chunks IH]; intros s s' e; simpl.
  - intros [= <- <-]. exists (ResponseWriter s), (buf s). by destruct s.
  - destruct (lowWrite dst s ch) as [[s1 [n [e1|]]]|] eqn:Hl; [| |done].
    + intros [= <- <-]. by eapply lowWrite_shape.
    + intros He. apply lowWrite_shape in Hl as (rw1 & b1 & ->).
      apply IH in He as (rw & b & ->). by exists rw, b.
Qed.

Lemma zCall_shape op s s' e :
  zCall op s = Some (s', e) →
  ∃ st dst rw b, z s = zOpen st dst
    ∧ s' = set_ResponseWriter rw (set_buf b (set_z (zOpen (zr_state (op st)) dst) s)).
Proof.
  unfold zCall. destruct (z s) as [| |st dst] eqn:Hz; [done..|].
  destruct (emit _ _ _) as [[s1 e1]|] eqn:He; [|done].
  apply emit_shape in He as (rw & b & ->).
  intros Hs. exists st, dst, rw, b. split; [done|].
  by destruct e1; simplify_eq.
Qed.

Lemma wWrite_shape s p s' r :
  wWrite s p = Some (s', r) →
  ∃ zv rw b, s' = set_ResponseWriter rw (set_buf b (set_z zv s))
    ∧ match zv with zOpen _ dst => ∃ st, z s = zOpen st dst | _ => zv = z s end.
Proof.
  unfold wWrite. intros Hw.
  assert (∀ dst, lowWrite dst s p = Some (s', r) →
    ∃ zv rw b, s' = set_ResponseWriter rw (set_buf b (set_z zv s))
      ∧ match zv with zOpen _ dst => ∃ st, z s = zOpen st dst | _ => zv = z s end)
    as Hlow.
  { intros dst (rw & b & ->)%lowWrite_shape. exists (z s), rw, b.
    split; [by destruct s|]. destruct (z s); eauto. }
  destruct (w s); eauto.
  destruct (zCall _ s) as [[s1 e1]|] eqn:Hc; [|done].
  apply zCall_shape in Hc as (st & dst & rw & b & Hz & ->).
  exists (zOpen (zr_state (z_write st p)) dst), rw, b.
  split; [by destruct e1; simplify_eq | eauto].
Qed.

(** *** The invariant *)

Lemma wellFormed_new rw comp lvl :
  wellFormed (newCompressResponseWriter rw comp lvl).
Proof. done. Qed.

Lemma wellFormed_err s : wellFormed s → err s ≠ None → wroteHeader s = true.
Proof.
  unfold wellFormed. destruct (wroteHeader s); [done|]. by intros ->.
Qed.

Lemma wellFormed_touch s rw b zv e :
  wroteHeader s = true → wellFormed s →
  match zv with zOpen _ dst => ∃ st, z s = zOpen st dst | _ => zv = z s end →
  (err s ≠ None → e ≠ None) →
  wellFormed (set_err e (set_ResponseWriter rw (set_buf b (set_z zv s)))).
Proof.
  unfold wellFormed, opened. simpl. intros -> Hwf Hz He.
  destruct Hwf as [(? & Hnil & ?)|[? Hop]]; [left|right]; (split; [done|]).
  - rewrite Hnil in Hz. by destruct zv; [|done|destruct Hz].
  - destruct zv as [| |st' dst].
    + rewrite <-Hz in Hop. auto.
    + rewrite <-Hz in Hop. auto.
    + destruct Hz as [st Hz]. by rewrite Hz in Hop.
Qed.

Lemma wellFormed_flushConn s : wellFormed s → wellFormed (flushConn s).
Proof.
  unfold wellFormed, opened, flushConn. simpl.
  destruct (wroteHeader s); [done|]. by intros ->.
Qed.

Lemma wellFormed_set_header h s : wellFormed s → wellFormed (set_header h s).
Proof.
  unfold wellFormed, opened, set_header. simpl.
  destruct (wroteHeader s); [done|]. by intros ->.
Qed.

(** *** The first header commit, case by case *)

Lemma getCompressor_pair comp dst lvl :
  getCompressor comp dst lvl =
    (fst (getCompressor comp dst lvl), snd (getCompressor comp dst lvl)).
Proof. by destruct (getCompressor comp dst lvl). Qed.

Lemma WriteHeader_new cfg rw comp lvl code :
  WriteHeader cfg (newCompressResponseWriter rw comp lvl) code =
    let s0 := set_w wResponseWriter
                (set_wroteHeader true (newCompressResponseWriter rw comp lvl)) in
    if checkIsCompressable cfg code (header rw) then
      if getContentLength (header rw) <? CompressMaxBuf cfg then
        if CompressMaxBuf cfg <? 0 then Panic s0
        else Done tt
          {| ResponseWriter :=
               {| header := updateHeaders comp (header rw); calls := calls rw |};
             z := fst (getCompressor comp wBuf lvl);
             buf := {| data := []; cap := Z.max 0 (0 + CompressMaxBuf cfg) |};
             w := wZ; c := comp; level := lvl; code := code;
             err := snd (getCompressor comp wBuf lvl);
             wroteHeader := true; isBuffered := true |}
      else Done tt
          {| ResponseWriter :=
               {| header := updateHeaders comp (header rw);
                  calls := calls rw
                             ++ [EvWriteHeader code (updateHeaders comp (header rw))] |};
             z := fst (getCompressor comp wResponseWriter lvl);
             buf := {| data := []; cap := 0 |};
             w := wZ; c := comp; level := lvl; code := 0;
             err := snd (getCompressor comp wResponseWriter lvl);
             wroteHeader := true; isBuffered := false |}
    else Done tt (set_ResponseWriter (rwWriteHeader rw code) s0).
Proof.
  unfold WriteHeader. cbn.
  destruct (checkIsCompressable _ _ _); [|done].
  destruct (getContentLength _ <? _).
  - unfold startBuffer, bufGrow. cbn.
    destruct (CompressMaxBuf cfg <? 0); [done|]. cbn.
    by rewrite getCompressor_pair.
  - cbn. by rewrite getCompressor_pair.
Qed.

Lemma getCompressor_result comp dst lvl :
  match fst (getCompressor comp dst lvl) with
  | zOpen st d =>
      st = z_new comp lvl ∧ d = dst ∧ snd (getCompressor comp dst lvl) = None
  | zNil | zNilPtr => snd (getCompressor comp dst lvl) ≠ None
  end.
Proof.
  unfold getCompressor. destruct comp; [done|..]; by destruct (_ || _).
Qed.

Lemma wellFormed_WriteHeader cfg s code :
  wellFormed s → wellFormed (after (WriteHeader cfg s code)).
Proof.
  intros Hwf. destruct (wroteHeader s) eqn:Hwh.
  { unfold WriteHeader. by rewrite Hwh. }
  unfold wellFormed in Hwf. rewrite Hwh in Hwf. rewrite Hwf, WriteHeader_new.
  generalize (ResponseWriter s) (c s) (level s). clear. intros rw comp lvl.
  cbn zeta.
  destruct (checkIsCompressable _ _ _); [|by left].
  destruct (getContentLength _ <? _).
  - destruct (CompressMaxBuf cfg <? 0); [by left|].
    right. split; [done|]. unfold opened. cbn.
    pose proof (getCompressor_result comp wBuf lvl) as Hg.
    destruct (fst _); [done..|]. by destruct Hg as (_ & -> & _).
  - right. split; [done|]. unfold opened. cbn.
    pose proof (getCompressor_result comp wResponseWriter lvl) as Hg.
    destruct (fst _); [done..|]. by destruct Hg as (_ & -> & _).
Qed.

Lemma wroteHeader_WriteHeader cfg s code :
  wroteHeader (after (WriteHeader cfg s code)) = true.
Proof.
  unfold WriteHeader. destruct (wroteHeader s) eqn:Hwh; [done|].
  unfold startBuffer, forwardHeader.
  repeat case_match; simplify_eq; try done.
  all: by repeat case_match.
Qed.

(** The state the first commit leaves when the stream failed to open. *)
Lemma WriteHeader_unopened cfg rw comp lvl code :
  let s1 := after (WriteHeader cfg (newCompressResponseWriter rw comp lvl) code) in
  err s1 ≠ None → w s1 = wZ ∧ (z s1 = zNil ∨ z s1 = zNilPtr).
Proof.
  rewrite WriteHeader_new. cbn zeta.
  destruct (checkIsCompressable _ _ _); [|done].
  destruct (getContentLength _ <? _).
  - destruct (CompressMaxBuf cfg <? 0); [done|]. cbn.
    pose proof (getCompressor_result comp wBuf lvl) as Hg.
    destruct (fst _); [by auto..|]. by destruct Hg as (_ & _ & ->).
  - cbn. pose proof (getCompressor_result comp wResponseWriter lvl) as Hg.
    destruct (fst _); [by auto..|]. by destruct Hg as (_ & _ & ->).
Qed.

Lemma wWrite_unopened s p :
  w s = wZ → z s = zNil ∨ z s = zNilPtr → wWrite s p = None.
Proof. unfold wWrite, zCall. by intros -> [-> | ->]. Qed.

Lemma wellFormed_Write cfg s p :
  wellFormed s → wellFormed (after (Write cfg s p)).
Proof.
  intros Hwf. unfold Write. destruct (err s) as [e|] eqn:He; [done|].
  assert (∀ s1, wellFormed s1 → wroteHeader s1 = true → err s1 = None →
    wellFormed (after (match wWrite s1 p with
      | Some (s2, (n, e)) =>
          Done (n, Wrap e "Write in compressResponseWriter failed")
               (set_err (Wrap e "Write in compressResponseWriter failed") s2)
      | None => Panic s1 end))) as Hstep.
  { intros s1 Hwf1 Hwh1 He1.
    destruct (wWrite s1 p) as [[s2 [n e]]|] eqn:Hw; [|done].
    apply wWrite_shape in Hw as (zv & rw & b & -> & Hz).
    apply wellFormed_touch; [done..|]. by rewrite He1. }
  destruct (wroteHeader s) eqn:Hwh; [by apply Hstep|].
  pose proof (wellFormed_WriteHeader cfg s StatusOK Hwf) as Hwf1.
  pose proof (wroteHeader_WriteHeader cfg s StatusOK) as Hwh1.
  assert (err (after (WriteHeader cfg s StatusOK)) ≠ None →
          wWrite (after (WriteHeader cfg s StatusOK)) p = None) as Hun.
  { unfold wellFormed in Hwf. rewrite Hwh in Hwf. rewrite Hwf.
    intros [? ?]%WriteHeader_unopened. by apply wWrite_unopened. }
  destruct (WriteHeader cfg s StatusOK) as [[] s1|s1]; [|done].
  cbn [after] in *.
  destruct (err s1) eqn:He1; [|by apply Hstep].
  by rewrite Hun.
Qed.

Lemma wellFormed_z_wroteHeader s :
  wellFormed s → z s ≠ zNil → wroteHeader s = true.
Proof.
  unfold wellFormed. destruct (wroteHeader s); [done|]. by intros ->.
Qed.

Lemma zCall_zNilPtr op s : z s = zNilPtr → zCall op s = None.
Proof. unfold zCall. by intros ->. Qed.

Lemma wellFormed_Flush s : wellFormed s → wellFormed (after (Flush s)).
Proof.
  intros Hwf. unfold Flush. destruct (err s) as [e|] eqn:He; [done|].
  destruct (z s) as [| |st0 dst0] eqn:Hz.
  - by apply wellFormed_flushConn.
  - by rewrite zCall_zNilPtr.
  - destruct (zCall z_flush s) as [[s1 e1]|] eqn:Hc; [|done].
    apply zCall_shape in Hc as (st' & dst & rw & b & Hz' & ->).
    cbn [after]. apply wellFormed_flushConn, wellFormed_touch; eauto.
    apply wellFormed_z_wroteHeader; [done|]. by rewrite Hz.
Qed.

Lemma bufWriteTo_shape s :
  ∃ rw b, after (bufWriteTo s) = set_ResponseWriter rw (set_buf b s).
Proof.
  unfold bufWriteTo. destruct (data (buf s)) as [|x l] eqn:Hd.
  { exists (ResponseWriter s), (buf s). by destruct s. }
  destruct (rwWrite _ _) as [rw [m e]].
  destruct (_ <? _)%nat.
  { exists rw, (buf s). by destruct s. }
  eexists rw, _. destruct e; [|destruct (_ =? _)%nat]; by destruct s.
Qed.

Lemma wellFormed_Close s : wellFormed s → wellFormed (after (Close s)).
Proof.
  intros Hwf. unfold Close. destruct (err s) as [e|] eqn:He; [done|].
  destruct (z s) as [| |st0 dst0] eqn:Hz.
  - by apply wellFormed_flushConn.
  - rewrite zCall_zNilPtr by done. by apply wellFormed_flushConn.
  - assert (wroteHeader s = true) as Hwh.
    { apply wellFormed_z_wroteHeader; [done|]. by rewrite Hz. }
    destruct (zCall z_close s) as [[s1 e1]|] eqn:Hc;
      [|by apply wellFormed_flushConn].
    apply zCall_shape in Hc as (st' & dst & rw & b & Hz' & ->).
    set (s2 := set_err _ _).
    assert (wellFormed s2) as Hwf2.
    { apply wellFormed_touch; eauto; by rewrite He. }
    assert (wroteHeader s2 = true) as Hwh2 by done.
    assert (∃ st dst, z s2 = zOpen st dst) as (st2 & dst2 & Hz2) by (cbn; eauto).
    clearbody s2.
    destruct (err s2) as [e2|] eqn:He2; [by apply wellFormed_flushConn|].
    destruct (isBuffered s2) eqn:Hb; [|by apply wellFormed_flushConn].
    set (s3 := set_ResponseWriter _ _).
    assert (wellFormed s3 ∧ wroteHeader s3 = true ∧ z s3 = zOpen st2 dst2
            ∧ err s3 = None) as (Hwf3 & Hwh3 & Hz3 & He3).
    { subst s3. unfold set_header. split_and!; [|done..].
      revert Hwf2. unfold wellFormed, opened. cbn. by rewrite Hwh2. }
    clearbody s3.
    destruct (bufWriteTo_shape s3) as (rw3 & b3 & Hs4).
    assert (∀ e4, wellFormed (flushConn (set_err e4 (after (bufWriteTo s3)))))
      as Hfin.
    { intros e4. apply wellFormed_flushConn. rewrite Hs4.
      replace (set_ResponseWriter rw3 (set_buf b3 s3))
        with (set_ResponseWriter rw3 (set_buf b3 (set_z (zOpen st2 dst2) s3)))
        by (rewrite <-Hz3; by destruct s3).
      apply wellFormed_touch; eauto; by rewrite He3. }
    destruct (bufWriteTo s3) as [e4 s4|s4] eqn:Hbw; cbn [after] in *.
    + apply Hfin.
    + specialize (Hfin (err s4)).
      replace (set_err (err s4) s4) with s4 in Hfin by (by destruct s4). done.
Qed.

(** Every state a sequence of calls reaches satisfies the invariant. *)
Lemma wellFormed_step cfg s op : wellFormed s → wellFormed (step cfg s op).
Proof.
  destruct op; cbn [step];
    auto using wellFormed_set_header, wellFormed_WriteHeader, wellFormed_Write,
      wellFormed_Flush, wellFormed_Close.
Qed.

Lemma wellFormed_run cfg ops : ∀ s, wellFormed s → wellFormed (run cfg ops s).
Proof.
  unfold run. induction ops as [|op ops IH]; intros s Hwf; [done|].
  cbn [fold_left]. by apply IH, wellFormed_step.
Qed.

Lemma sameConfig_WriteHeader cfg s code :
  sameConfig s (after (WriteHeader cfg s code)).
Proof.
  unfold WriteHeader, startBuffer, forwardHeader, bufGrow, sameConfig.
  repeat case_match; simplify_eq; cbn; try done.
  all: repeat case_match; done.
Qed.

Lemma sameConfig_Write cfg s p : sameConfig s (after (Write cfg s p)).
Proof.
  unfold Write. destruct (err s); [done|].
  assert (∀ s1, sameConfig s s1 →
    sameConfig s (after (match wWrite s1 p with
      | Some (s2, (n, e)) =>
          Done (n, Wrap e "Write in compressResponseWriter failed")
               (set_err (Wrap e "Write in compressResponseWriter failed") s2)
      | None => Panic s1 end))) as Hstep.
  { intros s1 Hs1. destruct (wWrite s1 p) as [[s2 [n e]]|] eqn:Hw; [|done].
    by apply wWrite_shape in Hw as (zv & rw & b & -> & _). }
  destruct (wroteHeader s); [by apply Hstep|].
  pose proof (sameConfig_WriteHeader cfg s StatusOK) as Hc.
  destruct (WriteHeader cfg s StatusOK); [by apply Hstep | done].
Qed.

Lemma sameConfig_Flush s : sameConfig s (after (Flush s)).
Proof.
  unfold Flush. destruct (err s); [done|].
  destruct (z s) eqn:Hz; [done|..];
    (destruct (zCall z_flush s) as [[s1 e1]|] eqn:Hc; [|done]);
    by apply zCall_shape in Hc as (? & ? & ? & ? & ? & ->).
Qed.

Lemma sameConfig_Close s : sameConfig s (after (Close s)).
Proof.
  unfold Close. destruct (err s); [done|].
  assert (∀ s1, sameConfig s s1 → sameConfig s (after
    (match err s1 with
     | Some e => Done (Some e) (flushConn s1)
     | None =>
         if isBuffered s1 then
           match bufWriteTo (set_ResponseWriter
                   (rwWriteHeader
                      (ResponseWriter
                         (set_header (Set_ (header (ResponseWriter s1))
                            hdrContentLength (Itoa (bufLen (buf s1)))) s1))
                      (code (set_header (Set_ (header (ResponseWriter s1))
                            hdrContentLength (Itoa (bufLen (buf s1)))) s1)))
                   (set_header (Set_ (header (ResponseWriter s1))
                            hdrContentLength (Itoa (bufLen (buf s1)))) s1)) with
           | Done e s0 => Done e (flushConn (set_err e s0))
           | Panic s0 => Panic (flushConn s0)
           end
         else Done None (flushConn s1)
     end))) as Hstep.
  { intros s1 Hs1. destruct (err s1); [done|]. destruct (isBuffered s1); [|done].
    match goal with |- context [bufWriteTo ?x] =>
      destruct (bufWriteTo_shape x) as (rw & b & Hx);
      destruct (bufWriteTo x); cbn [after] in *; by rewrite Hx end. }
  destruct (z s) eqn:Hz; [done|..];
    (destruct (zCall z_close s) as [[s1 e1]|] eqn:Hc; [|done]);
    apply zCall_shape in Hc as (? & ? & ? & ? & ? & ->); by apply Hstep.
Qed.

Lemma sameConfig_run cfg ops : ∀ s, sameConfig s (run cfg ops s).
Proof.
  unfold run. induction ops as [|op ops IH]; intros s; [done|].
  cbn [fold_left]. unfold sameConfig in *.
  destruct (IH (step cfg s op)) as [-> ->].
  destruct op; cbn [step]; [done|..].
  - apply sameConfig_WriteHeader.
  - apply sameConfig_Write.
  - apply sameConfig_Flush.
  - apply sameConfig_Close.
Qed.

(** Until the header is written the wrapper is as it was made, but for
    the connection. *)
Lemma run_fresh cfg ops rw comp lvl :
  let s := run cfg ops (newCompressResponseWriter rw comp lvl) in
  wroteHeader s = false →
  s = newCompressResponseWriter (ResponseWriter s) comp lvl.
Proof.
  intros s Hwh.
  assert (wellFormed s) as Hwf by apply wellFormed_run, wellFormed_new.
  destruct (sameConfig_run cfg ops (newCompressResponseWriter rw comp lvl))
    as [Hc Hl].
  fold s in Hc, Hl. cbn in Hc, Hl.
  unfold wellFormed in Hwf. rewrite Hwh in Hwf. by rewrite Hc, Hl in Hwf.
Qed.

(** *** Where the bytes of a stream go *)

Lemma emit_wBuf chunks : ∀ s, ∃ b,
  emit wBuf s chunks = Some (set_buf b s, None)
  ∧ data b = data (buf s) ++ concat chunks
  ∧ cap (buf s) ≤ cap b.
Proof.
  induction chunks as [|ch chunks IH]; intros s.
  - exists (buf s). cbn. rewrite app_nil_r. split_and!; [by destruct s|done|lia].
  - cbn [emit lowWrite].
    destruct (IH (set_buf (bufWrite (buf s) ch) s)) as (b & -> & Hd & Hc).
    exists b. split_and!; [done|..].
    + rewrite Hd. cbn. by rewrite <-app_assoc.
    + revert Hc. unfold bufWrite. cbn. lia.
Qed.

Lemma lowWrite_conn dst s p s' r :
  lowWrite dst s p = Some (s', r) →
  header (ResponseWriter s') = header (ResponseWriter s)
  ∧ ∃ evs, calls (ResponseWriter s') = calls (ResponseWriter s) ++ evs.
Proof.
  destruct dst; cbn; intros; simplify_eq; cbn; split; eauto.
  exists []. by rewrite app_nil_r.
Qed.

Lemma emit_conn dst chunks : ∀ s s' e,
  emit dst s chunks = Some (s', e) →
  header (ResponseWriter s') = header (ResponseWriter s)
  ∧ ∃ evs, calls (ResponseWriter s') = calls (ResponseWriter s) ++ evs.
Proof.
  induction chunks as [|ch chunks IH]; intros s s' e; cbn [emit].
  - intros [= <- <-]. split; [done|]. exists []. by rewrite app_nil_r.
  - destruct (lowWrite dst s ch) as [[s1 [n [e1|]]]|] eqn:Hl; [| |done].
    + intros [= <- <-]. by eapply lowWrite_conn.
    + intros He. apply lowWrite_conn in Hl as (Hh1 & evs1 & Hc1).
      apply IH in He as (Hh & evs & Hc).
      split; [congruence|]. exists (evs1 ++ evs). by rewrite Hc, Hc1, app_assoc.
Qed.

Lemma zCall_conn op s s' e :
  zCall op s = Some (s', e) →
  header (ResponseWriter s') = header (ResponseWriter s)
  ∧ ∃ evs, calls (ResponseWriter s') = calls (ResponseWriter s) ++ evs.
Proof.
  unfold zCall. destruct (z s) as [| |st dst]; [done..|].
  destruct (emit _ _ _) as [[s1 e1]|] eqn:He; [|done].
  apply emit_conn in He. by destruct e1; intros; simplify_eq.
Qed.

(** A write in the buffering state: the stream's output joins the buffer
    and the connection is left alone. *)
Lemma Write_buffering cfg s p st :
  err s = None → wroteHeader s = true → w s = wZ → z s = zOpen st wBuf →
  ∃ b, Write cfg s p =
         Done (match zr_err (z_write st p) with Some _ => O | None => length p end,
               Wrap (zr_err (z_write st p)) "Write in compressResponseWriter failed")
              (set_err (Wrap (zr_err (z_write st p))
                          "Write in compressResponseWriter failed")
                 (set_buf b (set_z (zOpen (zr_state (z_write st p)) wBuf) s)))
       ∧ data b = data (buf s) ++ concat (zr_out (z_write st p)).
Proof.
  intros He Hwh Hw Hz. unfold Write, wWrite, zCall. rewrite He, Hwh, Hw, Hz.
  destruct (emit_wBuf (zr_out (z_write st p))
              (set_z (zOpen (zr_state (z_write st p)) wBuf) s)) as (b & -> & Hd & _).
  exists b. split; [|done]. by destruct (zr_err _).
Qed.

(** *** The header commit *)

Lemma updateHeaders_lookup comp (hdr : Header) :
  updateHeaders comp hdr !! hdrContentLength = None
  ∧ updateHeaders comp hdr !! hdrContentEncoding = Some [compString comp]
  ∧ updateHeaders comp hdr !! hdrVary = Some [hdrAcceptEncoding].
Proof.
  unfold updateHeaders, Set_, Del. split_and!.
  - by rewrite !lookup_insert_ne, lookup_delete_eq.
  - by rewrite lookup_insert_ne, lookup_insert_eq.
  - by rewrite lookup_insert_eq.
Qed.

Lemma getCompressor_ok comp dst lvl :
  comp ≠ compNone → HuffmanOnly ≤ lvl ≤ BestCompression →
  getCompressor comp dst lvl = (zOpen (z_new comp lvl) dst, None).
Proof.
  intros Hc [Hl Hu]. unfold getCompressor.
  assert ((lvl <? HuffmanOnly) || (lvl >? BestCompression) = false) as ->.
  { rewrite Z.gtb_ltb. apply orb_false_iff. split; apply Z.ltb_ge; lia. }
  by destruct comp.
Qed.

Lemma WriteHeader_new_Done cfg rw comp lvl status :
  comp ≠ compNone → HuffmanOnly ≤ lvl ≤ BestCompression →
  0 ≤ CompressMaxBuf cfg →
  ∃ s', WriteHeader cfg (newCompressResponseWriter rw comp lvl) status = Done tt s'
        ∧ wroteHeader s' = true ∧ err s' = None.
Proof.
  intros Hc Hl Hb. rewrite WriteHeader_new. cbn zeta.
  destruct (checkIsCompressable _ _ _); [|by eexists].
  destruct (getContentLength _ <? _).
  - assert ((CompressMaxBuf cfg <? 0) = false) as -> by (apply Z.ltb_ge; lia).
    rewrite getCompressor_ok by done. by eexists.
  - rewrite getCompressor_ok by done. by eexists.
Qed.


(** C6, as amended.  When the first commit finds the response eligible, the
    Vary header of the response becomes the single value Accept-Encoding,
    whatever values it had. *)
Theorem WriteHeader_sets_Vary cfg rw comp lvl ops status s' :
  let s := run cfg ops (newCompressResponseWriter rw comp lvl) in
  wroteHeader s = false →
  WriteHeader cfg s status = Done tt s' →
  checkIsCompressable cfg status (header (ResponseWriter s)) = true →
  header (ResponseWriter s') !! hdrVary = Some [hdrAcceptEncoding].
Proof.
  intros s Hwh. pose proof (run_fresh _ _ _ _ _ Hwh) as Hs. fold s in Hs. clearbody s.
  set (rw0 := ResponseWriter s) in *. clearbody rw0. subst s.
  rewrite WriteHeader_new. cbn zeta.
  cbn [ResponseWriter newCompressResponseWriter].
  intros HW Hel. rewrite Hel in HW.
  pose proof (updateHeaders_lookup comp (header rw0)) as (_ & _ & Hv).
  destruct (getContentLength _ <? _);
    [destruct (CompressMaxBuf cfg <? 0); [done|]|]; by simplify_eq.
Qed.


(** Were the commit made by the write itself, that write would go on into
    the stream that is not there: it panics instead of returning.  [New]
    never brings this about, its codec and level being valid. *)
Lemma Write_implicit_commit_unopened cfg rw comp lvl p :
  0 ≤ CompressMaxBuf cfg →
  checkIsCompressable cfg StatusOK (header rw) = true →
  snd (getCompressor comp
         (if getContentLength (header rw) <? CompressMaxBuf cfg
          then wBuf else wResponseWriter) lvl) ≠ None →
  ∃ s1, Write cfg (newCompressResponseWriter rw comp lvl) p = Panic s1
        ∧ err s1 ≠ None.
Proof.
  intros Hb Hel He.
  pose proof (WriteHeader_unopened cfg rw comp lvl StatusOK) as Hun.
  unfold Write. cbn [err wroteHeader newCompressResponseWriter].
  rewrite WriteHeader_new in *. cbn zeta in *. rewrite Hel in *.
  destruct (getContentLength _ <? _).
  - assert ((CompressMaxBuf cfg <? 0) = false) as Hge by (apply Z.ltb_ge; lia).
    rewrite Hge in *. cbn [after] in Hun.
    destruct Hun as [Hw Hz]; [done|].
    rewrite wWrite_unopened by done. by eexists.
  - cbn [after] in Hun. destruct Hun as [Hw Hz]; [done|].
    rewrite wWrite_unopened by done. by eexists.
Qed.

(** *** The sticky error *)

Lemma Write_err cfg s p n e s' : Write cfg s p = Done (n, e) s' → err s' = e.
Proof.
  unfold Write. destruct (err s) eqn:He; [by intros [= <- <- <-]|].
  destruct (if wroteHeader s then _ else _) as [[] s1|]; [|done].
  destruct (wWrite s1 p) as [[s2 [m e2]]|]; [|done].
  by intros [= <- <- <-].
Qed.

Lemma Close_err s e s' : Close s = Done e s' → err s' = e.
Proof.
  unfold Close. destruct (err s) eqn:He; [by intros [= <- <-]|].
  assert (∀ s1 : compressResponseWriter, err s1 = None →
          Done None (flushConn s1) = Done e s' → err s' = e) as Hnone.
  { intros s1 He1 [= <- <-]. done. }
  destruct (z s); [by apply Hnone|..];
    (destruct (zCall z_close s) as [[s1 e1]|]; [|done]);
    (destruct (err (set_err _ s1)) eqn:He1; [by intros [= <- <-]|]);
    (destruct (isBuffered _); [|by apply Hnone]);
    (destruct (bufWriteTo _); [|done]); by intros [= <- <-].
Qed.

Lemma Flush_err s s1 e0 :
  err s = None → zCall z_flush s = Some (s1, Some e0) →
  err (after (Flush s)) = Some (ErrWrap e0 "Flushing compressResponseWriter failed").
Proof.
  intros He Hc. unfold Flush. rewrite He, Hc.
  unfold zCall in Hc. by destruct (z s).
Qed.

Lemma set_err_same s : set_err (err s) s = s.
Proof. by destruct s. Qed.

(** [Write] wraps, keeps and returns what [crw.w.Write] returned. *)
Lemma Write_records cfg s p s1 s2 n e0 :
  err s = None →
  (if wroteHeader s then Done tt s else WriteHeader cfg s StatusOK) = Done tt s1 →
  wWrite s1 p = Some (s2, (n, e0)) →
  let e := Wrap e0 "Write in compressResponseWriter failed" in
  Write cfg s p = Done (n, e) (set_err e s2).
Proof. intros He Hs1 Hw. unfold Write. by rewrite He, Hs1, Hw. Qed.

(** [Flush] wraps and keeps what [crw.z.Flush] returned. *)
Lemma Flush_records s s1 e0 :
  err s = None → zCall z_flush s = Some (s1, e0) →
  err (after (Flush s)) = Wrap e0 "Flushing compressResponseWriter failed".
Proof.
  intros He Hc. unfold Flush. rewrite He, Hc.
  unfold zCall in Hc. by destruct (z s).
Qed.

(** The wrapper as [Close] hands it to [crw.buf.WriteTo]: Content-Length
    set to the length of the buffer, the kept status committed. *)
Lemma Close_records s s1 e0 :
  err s = None → zCall z_close s = Some (s1, e0) →
  match e0 with
  | Some e =>
      let e' := Some (ErrWrap e "Closing compressResponseWriter failed") in
      Close s = Done e' (flushConn (set_err e' s1))
  | None =>
      if isBuffered s then
        let hdr' := Set_ (header (ResponseWriter s1)) hdrContentLength
                         (Itoa (bufLen (buf s1))) in
        let s2 := set_ResponseWriter
                    {| header := hdr';
                       calls := calls (ResponseWriter s1)
                                  ++ [EvWriteHeader (code s1) hdr'] |} s1 in
        ∀ e s3, bufWriteTo s2 = Done e s3 →
                Close s = Done e (flushConn (set_err e s3))
      else Close s = Done None (flushConn s1)
  end.
Proof.
  intros He Hc.
  destruct (zCall_shape _ _ _ _ Hc) as (st & dst & rw1 & b1 & Hz & Hs1).
  assert (err s1 = None) as He1 by (by rewrite Hs1).
  assert (isBuffered s1 = isBuffered s) as Hb1 by (by rewrite Hs1).
  assert (set_err None s1 = s1) as Hsame by (rewrite <-He1; apply set_err_same).
  unfold Close. rewrite He, Hz, Hc. clear Hs1.
  destruct e0 as [e|]; cbn [Wrap err set_err]; [done|].
  rewrite Hsame, Hb1. destruct (isBuffered s); [|done].
  cbv zeta. intros e s3 Hcopy.
  change (bufWriteTo _) with
    (bufWriteTo
       (set_ResponseWriter
          {| header := Set_ (header (ResponseWriter s1)) hdrContentLength
                            (Itoa (bufLen (buf s1)));
             calls := calls (ResponseWriter s1)
                        ++ [EvWriteHeader (code s1)
                              (Set_ (header (ResponseWriter s1)) hdrContentLength
                                    (Itoa (bufLen (buf s1))))] |} s1)).
  by rewrite Hcopy.
Qed.

(** C5.  On every state a sequence of calls can reach.  What is recorded:
    [Write] wraps, keeps and returns the error of [crw.w.Write], after the
    implicit commit if the header was not written; [Flush] wraps and keeps
    the error of [crw.z.Flush]; [Close] wraps, keeps and returns the error
    of [crw.z.Close], and when that one succeeds on a buffered response it
    keeps and returns, as it is, the error of [crw.buf.WriteTo]; with no
    stream, and on a streamed response whose stream closes, [Close]
    returns nil and keeps none.  In every case the error a write or a
    close returns is the error the wrapper keeps.  What follows: once an
    error is kept each of [WriteHeader], [Write], [Flush] and [Close]
    leaves the wrapper and the connection exactly as they are, [Write] and
    [Close] returning that same error. *)
Theorem sticky_error cfg rw comp lvl ops :
  let s := run cfg ops (newCompressResponseWriter rw comp lvl) in
  (∀ p s1 s2 n e0,
     err s = None →
     (if wroteHeader s then Done tt s else WriteHeader cfg s StatusOK) = Done tt s1 →
     wWrite s1 p = Some (s2, (n, e0)) →
     let e := Wrap e0 "Write in compressResponseWriter failed" in
     Write cfg s p = Done (n, e) (set_err e s2))
  ∧ (∀ s1 e0, err s = None → zCall z_flush s = Some (s1, e0) →
       err (after (Flush s)) = Wrap e0 "Flushing compressResponseWriter failed")
  ∧ (err s = None → z s = zNil →
       Flush s = Done tt (flushConn s) ∧ Close s = Done None (flushConn s))
  ∧ (∀ s1 e0, err s = None → zCall z_close s = Some (s1, e0) →
       match e0 with
       | Some e =>
           let e' := Some (ErrWrap e "Closing compressResponseWriter failed") in
           Close s = Done e' (flushConn (set_err e' s1))
       | None =>
           if isBuffered s then
             let hdr' := Set_ (header (ResponseWriter s1)) hdrContentLength
                              (Itoa (bufLen (buf s1))) in
             let s2 := set_ResponseWriter
                         {| header := hdr';
                            calls := calls (ResponseWriter s1)
                                       ++ [EvWriteHeader (code s1) hdr'] |} s1 in
             ∀ e s3, bufWriteTo s2 = Done e s3 →
                     Close s = Done e (flushConn (set_err e s3))
           else Close s = Done None (flushConn s1)
       end)
  ∧ (∀ p n e s', Write cfg s p = Done (n, e) s' → err s' = e)
  ∧ (∀ e s', Close s = Done e s' → err s' = e)
  ∧ ∀ e, err s = Some e →
      (∀ status, WriteHeader cfg s status = Done tt s)
      ∧ (∀ p, Write cfg s p = Done (O, Some e) s)
      ∧ Flush s = Done tt s
      ∧ Close s = Done (Some e) s.
Proof.
  intros s. split_and!.
  - intros p s1 s2 n e0. apply Write_records.
  - apply Flush_records.
  - intros He Hz. unfold Flush, Close. by rewrite He, Hz.
  - apply Close_records.
  - intros p n e s'. apply Write_err.
  - apply Close_err.
  - intros e He.
    assert (wroteHeader s = true) as Hwh.
    { apply wellFormed_err; [|by rewrite He].
      apply wellFormed_run, wellFormed_new. }
    unfold WriteHeader, Write, Flush, Close. by rewrite He, Hwh.
Qed.

(** *** Close *)

Lemma flushConn_conn s :
  header (ResponseWriter (flushConn s)) = header (ResponseWriter s)
  ∧ calls (ResponseWriter (flushConn s))
    = calls (ResponseWriter s) ++ (if rw_flusher then [EvFlush] else []).
Proof.
  unfold flushConn, rwFlush. destruct rw_flusher; cbn; [done|].
  by rewrite app_nil_r.
Qed.

Lemma bufWriteTo_conn s :
  header (ResponseWriter (after (bufWriteTo s))) = header (ResponseWriter s)
  ∧ calls (ResponseWriter (after (bufWriteTo s)))
    = calls (ResponseWriter s)
        ++ match data (buf s) with [] => [] | _ => [EvWrite (data (buf s))] end.
Proof.
  unfold bufWriteTo. destruct (data (buf s)) as [|x l] eqn:Hd.
  { cbn. by rewrite app_nil_r. }
  unfold rwWrite. destruct (rw_write _ _) as [m e].
  destruct (_ <? _)%nat; [done|].
  destruct e; [done|]. by destruct (_ =? _)%nat.
Qed.

(** What [Close] hands to the connection ends with the flush. *)
Lemma Close_conn s :
  err s = None →
  ∃ evs, calls (ResponseWriter (after (Close s)))
         = calls (ResponseWriter s) ++ evs
             ++ (if rw_flusher then [EvFlush] else []).
Proof.
  intros He. unfold Close. rewrite He.
  assert (∀ s1 evs1,
    calls (ResponseWriter s1) = calls (ResponseWriter s) ++ evs1 →
    ∃ evs, calls (ResponseWriter (flushConn s1))
           = calls (ResponseWriter s) ++ evs
               ++ (if rw_flusher then [EvFlush] else [])) as Hfl.
  { intros s1 evs1 Hs1. exists evs1.
    destruct (flushConn_conn s1) as [_ ->]. by rewrite Hs1, app_assoc. }
  assert (∃ evs, calls (ResponseWriter (flushConn s))
           = calls (ResponseWriter s) ++ evs
               ++ (if rw_flusher then [EvFlush] else [])) as Hfl0.
  { apply (Hfl s []). by rewrite app_nil_r. }
  destruct (z s); [done|..];
    (destruct (zCall z_close s) as [[s1 e1]|] eqn:Hc; [|done]);
    apply zCall_conn in Hc as (_ & evs1 & Hc1).
  all: destruct (err (set_err _ s1)); [by apply (Hfl _ evs1)|].
  all: destruct (isBuffered _); [|by apply (Hfl _ evs1)].
  all: match goal with |- context [bufWriteTo ?x] =>
         destruct (bufWriteTo_conn x) as [_ Hbw];
         destruct (bufWriteTo x); cbn [after] in *;
         eapply Hfl; cbn [set_err ResponseWriter]; rewrite Hbw; cbn;
         rewrite Hc1, <-!app_assoc; reflexivity
       end.
Qed.

(** C8, as amended.  A close that starts without a recorded error ends, on
    each of its ways out (no stream, a failed close of the stream, the
    buffered and the streamed body, a panic), by flushing the connection
    when the connection can flush.  A close that starts with a recorded
    error returns it at once and leaves the connection alone. *)
Theorem Close_flush s :
  match err s with
  | None =>
      ∃ evs, calls (ResponseWriter (after (Close s)))
             = calls (ResponseWriter s) ++ evs
                 ++ (if rw_flusher then [EvFlush] else [])
  | Some e => Close s = Done (Some e) s
  end.
Proof.
  destruct (err s) as [e|] eqn:He; [|by apply Close_conn].
  unfold Close. by rewrite He.
Qed.

Lemma wellFormed_buffering s :
  wellFormed s → err s = None → isBuffered s = true →
  wroteHeader s = true ∧ ∃ st, z s = zOpen st wBuf.
Proof.
  unfold wellFormed, opened. intros Hwf He Hb.
  destruct (wroteHeader s).
  - split; [done|]. destruct Hwf as [(_ & _ & ?)|[_ Hop]]; [congruence|].
    rewrite Hb in Hop. destruct (z s) as [| |st dst]; [done..|].
    subst. eauto.
  - by rewrite Hwf in Hb.
Qed.

(** The error [bytes.Buffer.WriteTo] makes of the count and error of the
    one write it issues. *)
Lemma bufWriteTo_result s x l :
  data (buf s) = x :: l →
  let res := rw_write (ResponseWriter s) (x :: l) in
  (fst res ≤ length (x :: l))%nat →
  ∃ s', bufWriteTo s
        = Done (match snd res with
                | Some e => Some e
                | None => if (fst res =? length (x :: l))%nat then None
                          else Some ErrShortWrite
                end) s'.
Proof.
  intros Hd res Hm. unfold bufWriteTo, rwWrite. rewrite Hd.
  fold res. destruct res as [m e]. cbn [fst snd] in *.
  assert ((length (x :: l) <? m)%nat = false) as -> by (apply Nat.ltb_ge; lia).
  destruct e; [by eexists|]. destruct (_ =? _)%nat; by eexists.
Qed.

(** C4.  A buffered response reached by any sequence of calls, closed with
    no error recorded.  Its stream is open on the buffer.  When the close
    of the stream succeeds, its output joins the buffer; Content-Length is
    then set to the decimal length of that buffer; the kept status code is
    committed to the connection with that header in place; the buffer goes
    out in one write after the commit (none when it is empty); the flush
    comes last.  The error of the copy is returned and kept. *)
Theorem Close_buffered cfg rw comp lvl ops :
  let s := run cfg ops (newCompressResponseWriter rw comp lvl) in
  err s = None → isBuffered s = true →
  ∃ st, z s = zOpen st wBuf ∧
    (zr_err (z_close st) = None →
     let body := data (buf s) ++ concat (zr_out (z_close st)) in
     let hdr' := <[hdrContentLength := [Itoa (Z.of_nat (length body))]]>
                   (header (ResponseWriter s)) in
     let committed :=
       {| header := hdr';
          calls := calls (ResponseWriter s) ++ [EvWriteHeader (code s) hdr'] |} in
     let s' := after (Close s) in
     header (ResponseWriter s') = hdr'
     ∧ (Z.of_nat (length body) < 2 ^ 63 →
        getContentLength (header (ResponseWriter s')) = Z.of_nat (length body))
     ∧ calls (ResponseWriter s')
       = calls committed
           ++ match body with [] => [] | _ => [EvWrite body] end
           ++ (if rw_flusher then [EvFlush] else [])
     ∧ match body with
       | [] => Close s = Done None s' ∧ err s' = None
       | _ =>
           let res := rw_write committed body in
           (fst res ≤ length body)%nat →
           let copied :=
             match snd res with
             | Some e => Some e
             | None => if (fst res =? length body)%nat then None
                       else Some ErrShortWrite
             end in
           Close s = Done copied s' ∧ err s' = copied
       end).
Proof.
  intros s He Hb.
  destruct (wellFormed_buffering s) as (Hwh & st & Hz); [|done..|].
  { apply wellFormed_run, wellFormed_new. }
  exists st. split; [done|]. intros Hzr body hdr' committed.
  clearbody s.
  unfold Close. rewrite He, Hz. unfold zCall. rewrite Hz.
  destruct (emit_wBuf (zr_out (z_close st))
              (set_z (zOpen (zr_state (z_close st)) wBuf) s)) as (b & -> & Hd & _).
  rewrite Hzr. simpl_crw. rewrite Hb. fold body in Hd.
  assert (bufLen b = Z.of_nat (length body)) as -> by (unfold bufLen; by rewrite Hd).
  unfold Set_. fold hdr'. fold committed.
  match goal with |- context [bufWriteTo ?x] => set (s3 := x) end.
  assert (data (buf s3) = body) as Hd3 by done.
  assert (ResponseWriter s3 = committed) as Hrw3 by done.
  destruct (bufWriteTo_conn s3) as [Hh Hc]. rewrite Hd3, Hrw3 in Hc.
  rewrite Hrw3 in Hh.
  assert (∀ h : Header, h = hdr' → Z.of_nat (length body) < 2 ^ 63 →
          getContentLength h = Z.of_nat (length body)) as Hlen.
  { intros h -> Hlt. unfold getContentLength, Get. subst hdr'.
    rewrite lookup_insert_eq, Atoi_Itoa; [done|lia]. }
  destruct body as [|x l] eqn:Hbody.
  - unfold bufWriteTo in *. rewrite Hd3 in *. cbn [after] in *.
    destruct (flushConn_conn (set_err None s3)) as [Hfh Hfc].
    split_and!; [by rewrite Hfh | apply Hlen; by rewrite Hfh | | done..].
    rewrite Hfc. cbn [set_err ResponseWriter]. by rewrite Hrw3.
  - assert (header (ResponseWriter (after
              match bufWriteTo s3 with
              | Done e s0 => Done e (flushConn (set_err e s0))
              | Panic s0 => Panic (flushConn s0)
              end)) = hdr') as Hhdr.
    { destruct (bufWriteTo s3) as [e4 s4|s4]; cbn [after] in *.
      * destruct (flushConn_conn (set_err e4 s4)) as [-> _]. done.
      * destruct (flushConn_conn s4) as [-> _]. done. }
    split_and!; [done|by apply Hlen|..].
    + destruct (bufWriteTo s3) as [e4 s4|s4]; cbn [after] in *.
      * destruct (flushConn_conn (set_err e4 s4)) as [_ ->].
        cbn [set_err ResponseWriter]. by rewrite Hc, <-app_assoc.
      * destruct (flushConn_conn s4) as [_ ->]. by rewrite Hc, <-app_assoc.
    + intros Hm.
      destruct (bufWriteTo_result s3 x l Hd3) as (s4 & ->).
      { by rewrite Hrw3. }
      by rewrite Hrw3.
Qed.

(** *** Write *)

Lemma emit_Some dst chunks : ∀ s,
  dst = wBuf ∨ dst = wResponseWriter → is_Some (emit dst s chunks).
Proof.
  induction chunks as [|ch chunks IH]; intros s Hdst; cbn [emit]; [done|].
  destruct Hdst as [-> | ->]; cbn [lowWrite].
  - apply IH. by left.
  - destruct (rwWrite _ _) as [rw' [n [e|]]]; [done|]. apply IH. by right.
Qed.

Lemma Write_forwarded cfg s p :
  wellFormed s → err s = None → wroteHeader s = true →
  forwarded s p (Write cfg s p).
Proof.
  intros Hwf He Hwh. unfold forwarded, Write, wWrite. rewrite He, Hwh.
  unfold wellFormed, opened in Hwf. rewrite Hwh in Hwf.
  destruct Hwf as [(Hw & Hz & Hb)|[Hw Hop]].
  - rewrite Hz, Hw. split; [done|]. cbn [lowWrite]. unfold rwWrite.
    by destruct (rw_write _ _) as [n e].
  - destruct (z s) as [| |st dst] eqn:Hz; [by rewrite He in Hop..|].
    rewrite Hw. split_and!; [done..|]. unfold zCall. rewrite Hz.
    destruct (emit_Some dst (zr_out (z_write st p))
                (set_z (zOpen (zr_state (z_write st p)) dst) s)) as [[s2 e0] Hem].
    { rewrite Hop. destruct (isBuffered s); auto. }
    exists s2, e0. split; [done|]. rewrite Hem.
    destruct e0 as [e0|]; [done|]. by destruct (zr_err _).
Qed.

(** C7.  A write on a wrapper of a negotiated codec, in any state a
    sequence of calls can reach.  With an error recorded it returns that
    error and changes nothing.  Otherwise the header is first committed
    with status 200 when no commit has happened yet, and the bytes then go
    to the stream when compressing (its output reaching the buffer or the
    connection) and to the connection itself when not; the error of that
    write, wrapped, is both recorded and returned. *)
Theorem Write_forwards cfg rw comp lvl ops p :
  comp ≠ compNone → HuffmanOnly ≤ lvl ≤ BestCompression →
  0 ≤ CompressMaxBuf cfg →
  let s := run cfg ops (newCompressResponseWriter rw comp lvl) in
  match err s with
  | Some e => Write cfg s p = Done (O, Some e) s
  | None =>
      ∃ s1,
        (if wroteHeader s then s1 = s
         else WriteHeader cfg s StatusOK = Done tt s1)
        ∧ wroteHeader s1 = true
        ∧ forwarded s1 p (Write cfg s p)
        ∧ ∃ n e s2, Write cfg s p = Done (n, e) s2 ∧ err s2 = e
  end.
Proof.
  intros Hc Hl Hb s.
  assert (wellFormed s) as Hwf by apply wellFormed_run, wellFormed_new.
  destruct (sameConfig_run cfg ops (newCompressResponseWriter rw comp lvl))
    as [Hcs Hls].
  fold s in Hcs, Hls. cbn in Hcs, Hls. clearbody s.
  destruct (err s) as [e|] eqn:He.
  { unfold Write. by rewrite He. }
  assert (∀ s1 o, forwarded s1 p o → ∃ n e s2, o = Done (n, e) s2 ∧ err s2 = e)
    as Hdone.
  { unfold forwarded. intros s1 o Hf.
    destruct (z s1); [destruct Hf as [_ ->]; by eexists _, _, _..|].
    destruct Hf as (_ & _ & s2 & e0 & _ & ->). by eexists _, _, _. }
  destruct (wroteHeader s) eqn:Hwh.
  - exists s. split_and!; [done..| |].
    + by apply Write_forwarded.
    + by eapply Hdone, Write_forwarded.
  - pose proof Hwf as Hnew. unfold wellFormed in Hnew. rewrite Hwh in Hnew.
    rewrite Hcs, Hls in Hnew.
    destruct (WriteHeader_new_Done cfg (ResponseWriter s) comp lvl StatusOK)
      as (s1 & HW & Hwh1 & He1); [done..|].
    rewrite <-Hnew in HW.
    assert (wellFormed s1) as Hwf1.
    { pose proof (wellFormed_WriteHeader cfg s StatusOK Hwf) as Hx.
      by rewrite HW in Hx. }
    assert (Write cfg s p = Write cfg s1 p) as ->.
    { unfold Write. by rewrite He, Hwh, HW, He1, Hwh1. }
    exists s1. split_and!; [done..| |].
    + by apply Write_forwarded.
    + by eapply Hdone, Write_forwarded.
Qed.

(** *** The middleware *)

Lemma New_direct cfg h rw r :
  checkAcceptEncoding (reqHeader r) = compNone →
  New cfg h rw r =
    {| conn := fst (serveConn (h r) rw);
       panicked := snd (serveConn (h r) rw);
       logged := [] |}.
Proof.
  intros Hn. unfold New. rewrite Hn. cbn. by destruct (serveConn _ _).
Qed.

(** C9.  When the request has no Accept-Encoding header, or its value
    contains neither "gzip" nor "deflate", or (weaker) no token of the value
    is gzip or deflate once trimmed, the middleware serves the request by
    running the handler on the connection itself: the connection ends with
    exactly the headers and calls the handler alone produces, and nothing
    is logged. *)
Theorem New_without_codec cfg h rw r :
  let v := Get (reqHeader r) hdrAcceptEncoding in
  reqHeader r !! hdrAcceptEncoding = None
  ∨ (¬ contains v "gzip" ∧ ¬ contains v "deflate")
  ∨ (∀ t, t ∈ Split v → TrimSpace t ≠ "gzip" ∧ TrimSpace t ≠ "deflate") →
  New cfg h rw r =
    {| conn := fst (serveConn (h r) rw);
       panicked := snd (serveConn (h r) rw);
       logged := [] |}.
Proof.
  intros v Hv. apply New_direct, checkEncodings_none. fold v.
  destruct Hv as [Habs|[[Hg Hd]|Hall]]; [| |done].
  - subst v. unfold Get. rewrite Habs.
    by intros t ->%list_elem_of_singleton.
  - intros t Ht. split; intros Heq; [apply Hg|apply Hd];
      by eapply token_contains.
Qed.

End SinkProperties.

(** * Further properties *)

(** ** More on negotiation *)

Lemma checkEncodings_listed (encs : list string) :
  checkEncodings encs = compNone
  ∨ compString (checkEncodings encs) ∈ TrimSpace <$> encs.
Proof.
  induction encs as [|t encs IH]; [by left|].
  cbn [checkEncodings]. rewrite matchName_compStrings, fmap_cons.
  destruct (String.eqb "none" (TrimSpace t)) eqn:Hn; [by left|].
  destruct (String.eqb "gzip" (TrimSpace t)) eqn:Hg.
  { right. apply String.eqb_eq in Hg. rewrite <-Hg. by left. }
  destruct (String.eqb "deflate" (TrimSpace t)) eqn:Hd.
  { right. apply String.eqb_eq in Hd. rewrite <-Hd. by left. }
  destruct IH as [IH|IH]; [by left|]. right. by right.
Qed.

(** X1.  Negotiation picks no codec the client did not name: the result is
    [compNone], or its name is one of the trimmed tokens of the request's
    Accept-Encoding value. *)
Theorem checkAcceptEncoding_listed (hdr : Header) :
  checkAcceptEncoding hdr = compNone
  ∨ compString (checkAcceptEncoding hdr)
    ∈ TrimSpace <$> Split (Get hdr hdrAcceptEncoding).
Proof. apply checkEncodings_listed. Qed.

Lemma matchName_miss (e : string) :
  e ∉ compStrings → matchName e compStrings 0 = None.
Proof.
  intros Hnot. rewrite matchName_compStrings.
  destruct (String.eqb "none" e) eqn:H0.
  { apply String.eqb_eq in H0. subst. exfalso. apply Hnot. by left. }
  destruct (String.eqb "gzip" e) eqn:H1.
  { apply String.eqb_eq in H1. subst. exfalso. apply Hnot. right. by left. }
  destruct (String.eqb "deflate" e) eqn:H2; [|done].
  apply String.eqb_eq in H2. subst. exfalso. apply Hnot. right. right. by left.
Qed.

Lemma matchName_hit (c : compType) :
  matchName (compString c) compStrings 0 = Some (compIndex c).
Proof. by destruct c. Qed.

Lemma compType_of_index_compIndex (c : compType) :
  compType_of_index (compIndex c) = c.
Proof. by destruct c. Qed.

(** X2.  The client's order decides: the first token that is a name of
    [compStrings] once trimmed gives the result, whatever follows it.  A
    token that is no such name (another codec, a name in capitals, a name
    with a quality value) is passed over. *)
Theorem checkAcceptEncoding_first_match (hdr : Header)
    (pre rest : list string) (t : string) (c : compType) :
  Split (Get hdr hdrAcceptEncoding) = pre ++ t :: rest →
  (∀ u, u ∈ pre → TrimSpace u ∉ compStrings) →
  TrimSpace t = compString c →
  checkAcceptEncoding hdr = c.
Proof.
  unfold checkAcceptEncoding. intros -> Hpre Ht.
  induction pre as [|u pre IH]; cbn [app checkEncodings].
  - by rewrite Ht, matchName_hit, compType_of_index_compIndex.
  - rewrite matchName_miss by (apply Hpre; by left).
    apply IH. intros v Hv. apply Hpre. by right.
Qed.

(** ** Eligibility *)

(** X3.  A response the wrapper has marked as compressed is never eligible
    again: with the headers [WriteHeader] sets, Content-Encoding holds the
    name of the codec, so [checkIsCompressable] answers false for every
    status code and every setting of the tunables.  A second middleware
    around the first passes such a response through. *)
Theorem updateHeaders_not_compressable cfg code comp (hdr : Header) :
  checkIsCompressable cfg code (updateHeaders comp hdr) = false.
Proof.
  unfold checkIsCompressable.
  assert (checkHeaderHas (updateHeaders comp hdr) hdrContentEncoding = true) as ->.
  { unfold checkHeaderHas, Get.
    destruct (updateHeaders_lookup comp hdr) as (_ & -> & _). by destruct comp. }
  cbn. by rewrite andb_false_r.
Qed.

Lemma checkIsCompressable_code cfg code hdr :
  checkIsCompressable cfg code hdr = true → code = StatusOK.
Proof.
  unfold checkIsCompressable. rewrite !andb_true_iff.
  intros [[[[Hc%Z.eqb_eq _] _] _] _]. done.
Qed.

(** ** The wrapper *)

Section MoreSinkProperties.
Context `{Env}.

#[local] Arguments checkIsCompressable : simpl never.
#[local] Arguments getContentLength : simpl never.
#[local] Arguments updateHeaders : simpl never.
#[local] Arguments Itoa : simpl never.
#[local] Arguments Z.ltb : simpl never.
#[local] Arguments Z.gtb : simpl never.
#[local] Arguments Z.max : simpl never.
#[local] Arguments Z.add : simpl never.

(** X4.  [getCompressor] returns a stream and no error, or an error and no
    stream, never both and never neither: a fresh stream on the writer it
    was given, for gzip or deflate at a level from -2 to 9; the nil
    interface and "Unknown compressor type" for [compNone]; the nil pointer
    of the failed constructor and its level error otherwise.  Each error is
    wrapped with "Opening compressor failed". *)
Theorem getCompressor_cases comp dst lvl :
  match getCompressor comp dst lvl with
  | (zOpen st d, None) =>
      comp ≠ compNone ∧ HuffmanOnly ≤ lvl ≤ BestCompression
      ∧ st = z_new comp lvl ∧ d = dst
  | (zNil, Some e) =>
      comp = compNone
      ∧ e = ErrWrap (ErrNew "Unknown compressor type") "Opening compressor failed"
  | (zNilPtr, Some e) =>
      comp ≠ compNone ∧ (lvl < HuffmanOnly ∨ BestCompression < lvl)
      ∧ ∃ pkg, e = ErrWrap (ErrLevel pkg lvl) "Opening compressor failed"
  | _ => False
  end.
Proof.
  unfold getCompressor. destruct comp; [done|..];
    (destruct ((lvl <? HuffmanOnly) || (lvl >? BestCompression)) eqn:Hl; cbn;
     [apply orb_true_iff in Hl; rewrite Z.gtb_ltb, !Z.ltb_lt in Hl;
      split_and!; [done|lia|by eexists]
     |apply orb_false_iff in Hl; rewrite Z.gtb_ltb, !Z.ltb_ge in Hl;
      split_and!; [done|lia|lia|done..]]).
Qed.


(** *** What a call can change once the header is written *)

Lemma crw_eta s :
  s = set_err (err s)
        (set_ResponseWriter (ResponseWriter s) (set_buf (buf s) (set_z (z s) s))).
Proof. by destruct s. Qed.

Lemma z_same (zv : compressor) :
  match zv with zOpen _ dst => ∃ st, zv = zOpen st dst | _ => zv = zv end.
Proof. destruct zv; eauto. Qed.

(** Once the header is written, a call changes the connection, the buffer,
    the state of the stream and the error, and nothing else. *)
Lemma step_shape cfg s op :
  wroteHeader s = true →
  ∃ zv rw b e,
    step cfg s op = set_err e (set_ResponseWriter rw (set_buf b (set_z zv s)))
    ∧ match zv with zOpen _ dst => ∃ st, z s = zOpen st dst | _ => zv = z s end.
Proof.
  intros Hwh.
  assert (∀ rw e, ∃ zv rw' b e',
    set_err e (set_ResponseWriter rw s)
      = set_err e' (set_ResponseWriter rw' (set_buf b (set_z zv s)))
    ∧ match zv with zOpen _ dst => ∃ st, z s = zOpen st dst | _ => zv = z s end)
    as Hself.
  { intros rw e. exists (z s), rw, (buf s), e. split; [by destruct s|].
    apply z_same. }
  assert (∃ zv rw' b e',
    s = set_err e' (set_ResponseWriter rw' (set_buf b (set_z zv s)))
    ∧ match zv with zOpen _ dst => ∃ st, z s = zOpen st dst | _ => zv = z s end)
    as Hs.
  { destruct (Hself (ResponseWriter s) (err s)) as (zv & rw & b & e & Heq & Hz).
    exists zv, rw, b, e. split; [|done]. rewrite <-Heq. by destruct s. }
  destruct op as [f|code|p| |]; cbn [step].
  - destruct (Hself {| header := f (header (ResponseWriter s));
                       calls := calls (ResponseWriter s) |} (err s))
      as (zv & rw & b & e & Heq & Hz).
    exists zv, rw, b, e. split; [|done]. rewrite <-Heq. by destruct s.
  - unfold WriteHeader. by rewrite Hwh.
  - unfold Write. destruct (err s); [done|]. rewrite Hwh.
    destruct (wWrite s p) as [[s2 [n e]]|] eqn:Hw; [|done].
    apply wWrite_shape in Hw as (zv & rw & b & -> & Hz). cbn [after].
    by exists zv, rw, b, (Wrap e "Write in compressResponseWriter failed").
  - unfold Flush. destruct (err s) eqn:He; [done|].
    destruct (z s) as [| |st0 dst0] eqn:Hz.
    + destruct (Hself (rwFlush (ResponseWriter s)) None)
        as (zv & rw & b & e & Heq & Hzv).
      exists zv, rw, b, e. split; [|done]. rewrite <-Heq.
      unfold flushConn. destruct s; cbn in *; by subst.
    + by rewrite zCall_zNilPtr.
    + destruct (zCall z_flush s) as [[s1 e1]|] eqn:Hc; [|done].
      apply zCall_shape in Hc as (st' & dst & rw & b & Hz' & ->).
      exists (zOpen (zr_state (z_flush st')) dst), (rwFlush rw), b,
        (Wrap e1 "Flushing compressResponseWriter failed").
      split; [done|]. rewrite Hz in Hz'. eauto.
  - unfold Close. destruct (err s) eqn:He; [done|].
    destruct (z s) as [| |st0 dst0] eqn:Hz.
    + destruct (Hself (rwFlush (ResponseWriter s)) None)
        as (zv & rw & b & e & Heq & Hzv).
      exists zv, rw, b, e. split; [|done]. rewrite <-Heq.
      unfold flushConn. destruct s; cbn in *; by subst.
    + rewrite zCall_zNilPtr by done.
      destruct (Hself (rwFlush (ResponseWriter s)) None)
        as (zv & rw & b & e & Heq & Hzv).
      exists zv, rw, b, e. split; [|done]. rewrite <-Heq.
      unfold flushConn. destruct s; cbn in *; by subst.
    + destruct (zCall z_close s) as [[s1 e1]|] eqn:Hc.
      2:{ destruct (Hself (rwFlush (ResponseWriter s)) None)
            as (zv & rw & b & e & Heq & Hzv).
          exists zv, rw, b, e. split; [|done]. rewrite <-Heq.
          unfold flushConn. destruct s; cbn in *; by subst. }
      apply zCall_shape in Hc as (st' & dst & rw & b & Hz' & ->).
      rewrite Hz in Hz'. injection Hz' as <- <-.
      destruct (Wrap e1 _) as [e2|] eqn:He2; simpl_crw.
      { eexists (zOpen _ dst0), (rwFlush rw), b, (Some e2).
        split; [reflexivity|eauto]. }
      destruct (isBuffered s).
      2:{ eexists (zOpen _ dst0), (rwFlush rw), b, None.
          split; [reflexivity|eauto]. }
      match goal with |- context [bufWriteTo ?x] =>
        destruct (bufWriteTo_shape x) as (rw3 & b3 & Hx);
        destruct (bufWriteTo x) as [e4 s4|s4]; cbn [after] in *; subst
      end.
      * eexists (zOpen _ dst0), (rwFlush rw3), b3, e4.
        split; [reflexivity|eauto].
      * eexists (zOpen _ dst0), (rwFlush rw3), b3, None.
        split; [reflexivity|eauto].
Qed.

Lemma step_wroteHeader cfg s op :
  wroteHeader s = true → wroteHeader (step cfg s op) = true.
Proof.
  intros Hwh. by destruct (step_shape cfg s op Hwh) as (? & ? & ? & ? & -> & _).
Qed.

Lemma run_wroteHeader cfg ops : ∀ s,
  wroteHeader s = true → wroteHeader (run cfg ops s) = true.
Proof.
  unfold run. induction ops as [|op ops IH]; intros s Hwh; [done|].
  cbn [fold_left]. by apply IH, step_wroteHeader.
Qed.

(** X5.  The decision taken at the commit is permanent.  From a wrapper
    whose header is written, no sequence of calls changes the writer
    [crw.w], the buffered flag or the kept status code, opens a stream where
    there was none, or moves an open stream to another destination. *)
Theorem decision_is_permanent cfg s ops :
  wroteHeader s = true →
  let s' := run cfg ops s in
  wroteHeader s' = true ∧ w s' = w s ∧ isBuffered s' = isBuffered s
  ∧ code s' = code s
  ∧ match z s with
    | zOpen _ dst => ∃ st', z s' = zOpen st' dst
    | zNil => z s' = zNil
    | zNilPtr => z s' = zNilPtr
    end.
Proof.
  revert s. unfold run. induction ops as [|op ops IH]; intros s Hwh.
  { cbn. split_and!; [done..|]. destruct (z s); eauto. }
  cbn [fold_left]. cbn zeta.
  destruct (step_shape cfg s op Hwh) as (zv & rw & b & e & Hstep & Hzv).
  destruct (IH (step cfg s op)) as (Hw1 & Hw2 & Hb & Hc & Hz).
  { by apply step_wroteHeader. }
  cbn zeta in *. rewrite Hstep in *. simpl_crw.
  split_and!; [done..|].
  destruct zv as [| |st1 dst1].
  - by rewrite <-Hzv.
  - by rewrite <-Hzv.
  - destruct Hzv as [st Hzv]. by rewrite Hzv.
Qed.

(** X6.  A header commit counts once.  After a first [WriteHeader], of any
    status and however it ended, a [WriteHeader] at any later point changes
    nothing: the status of a second call is dropped. *)
Theorem WriteHeader_once cfg s ops first second :
  let s1 := run cfg ops (after (WriteHeader cfg s first)) in
  WriteHeader cfg s1 second = Done tt s1.
Proof.
  intros s1. unfold WriteHeader. subst s1.
  by rewrite (run_wroteHeader cfg ops _ (wroteHeader_WriteHeader cfg s first)).
Qed.


(** *** The order of the calls on the connection *)

Lemma countCommits_app evs evs' :
  countCommits (evs ++ evs') = (countCommits evs + countCommits evs')%nat.
Proof.
  induction evs as [|[] evs IH]; cbn [app countCommits]; [done|..]; by rewrite IH.
Qed.

Lemma bodyAfterCommit_true evs : bodyAfterCommit true evs = true.
Proof. induction evs as [|[] evs IH]; cbn; done. Qed.

Lemma bodyAfterCommit_app b evs evs' :
  bodyAfterCommit b (evs ++ evs')
  = bodyAfterCommit b evs
    && bodyAfterCommit (b || negb (countCommits evs =? 0)%nat) evs'.
Proof.
  revert b. induction evs as [|[] evs IH]; intros b; cbn [app bodyAfterCommit countCommits].
  - by rewrite orb_false_r.
  - rewrite IH. cbn. by rewrite orb_true_r, !bodyAfterCommit_true.
  - rewrite IH. by destruct b.
  - by rewrite IH.
Qed.

Lemma orderly_nil b : orderly b [] b.
Proof. unfold orderly. cbn. by destruct b. Qed.

Lemma orderly_app b evs b1 evs' b2 :
  orderly b evs b1 → orderly b1 evs' b2 → orderly b (evs ++ evs') b2.
Proof.
  unfold orderly. intros (Hc1 & Hm1 & Hb1) (Hc2 & Hm2 & Hb2).
  rewrite countCommits_app, bodyAfterCommit_app, Hc1, Hc2, Hb1.
  destruct b, b1, b2; cbn in *; try done; auto.
  all: try (by specialize (Hm1 eq_refl)); try (by specialize (Hm2 eq_refl)).
  all: by rewrite ?bodyAfterCommit_true.
Qed.

Lemma countCommits_writes (l : list bytes) (fl : list event) :
  fl = [] ∨ fl = [EvFlush] → countCommits ((EvWrite <$> l) ++ fl) = O.
Proof.
  intros Hfl. rewrite countCommits_app.
  assert (countCommits fl = O) as -> by (by destruct Hfl as [-> | ->]).
  induction l as [|p l IH]; [done|]. rewrite fmap_cons. cbn. exact IH.
Qed.

(** Writes and a flush keep the order when the header is sent, and a
    flush alone does in any case. *)
Lemma orderly_writes b (l : list bytes) (fl : list event) :
  fl = [] ∨ fl = [EvFlush] → (b = false → l = []) →
  orderly b ((EvWrite <$> l) ++ fl) b.
Proof.
  intros Hfl Hl. unfold orderly. rewrite countCommits_writes by done.
  split_and!; [by destruct b|done|].
  destruct b; [apply bodyAfterCommit_true|].
  rewrite Hl by done. by destruct Hfl as [-> | ->].
Qed.

Lemma flush_events : (if rw_flusher then [EvFlush] else []) = []
                     ∨ (if rw_flusher then [EvFlush] else []) = [EvFlush].
Proof. destruct rw_flusher; auto. Qed.

(** The chunks a stream hands down reach the connection as writes, in
    order, up to the first that fails; the buffer takes them silently. *)
Lemma emit_events dst chunks : ∀ s s' e,
  emit dst s chunks = Some (s', e) →
  ∃ k, calls (ResponseWriter s')
       = calls (ResponseWriter s)
           ++ (EvWrite <$> match dst with
                           | wResponseWriter => take k chunks
                           | _ => []
                           end)
       ∧ (e = None → (length chunks ≤ k)%nat).
Proof.
  induction chunks as [|ch chunks IH]; intros s s' e; cbn [emit].
  { intros [= <- <-]. exists O. split; [|done].
    destruct dst; cbn; by rewrite app_nil_r. }
  destruct (lowWrite dst s ch) as [[s1 [n [e1|]]]|] eqn:Hl; [| |done].
  - intros [= <- <-]. exists 1%nat. split; [|done].
    destruct dst; cbn in Hl; simplify_eq; cbn. done.
  - intros He. apply IH in He as (k & Hk & Hlen). exists (S k). split.
    + rewrite Hk. destruct dst; cbn in Hl; simplify_eq; cbn.
      * by rewrite <-app_assoc.
      * done.
    + intros ->. cbn. specialize (Hlen eq_refl). lia.
Qed.

Lemma zCall_events op s s' e st dst :
  z s = zOpen st dst → zCall op s = Some (s', e) →
  ∃ k, calls (ResponseWriter s')
       = calls (ResponseWriter s)
           ++ (EvWrite <$> match dst with
                           | wResponseWriter => take k (zr_out (op st))
                           | _ => []
                           end).
Proof.
  unfold zCall. intros ->.
  destruct (emit _ _ _) as [[s1 e1]|] eqn:He; [|done].
  apply emit_events in He as (k & Hk & _).
  intros Hs. exists k. by destruct e1; simplify_eq.
Qed.

(** On a wrapper whose header is written, an open stream writes to the
    connection only when the header is sent. *)
Lemma wellFormed_dst s st dst :
  wellFormed s → wroteHeader s = true → z s = zOpen st dst →
  headerSent s = false → dst = wBuf.
Proof.
  unfold wellFormed, opened, headerSent. intros Hwf Hwh Hz. rewrite Hwh in *.
  destruct Hwf as [(_ & Hnil & _)|[_ Hop]]; [congruence|].
  rewrite Hz in Hop. subst dst. by destruct (isBuffered s).
Qed.

Lemma wellFormed_passthrough s :
  wellFormed s → wroteHeader s = true → w s = wResponseWriter →
  headerSent s = true.
Proof.
  unfold wellFormed, headerSent. intros Hwf Hwh Hw. rewrite Hwh in *.
  destruct Hwf as [(_ & _ & ->)|[? _]]; [done|congruence].
Qed.

Lemma wellFormed_w s :
  wellFormed s → wroteHeader s = true → w s = wResponseWriter ∨ w s = wZ.
Proof.
  unfold wellFormed. intros Hwf Hwh. rewrite Hwh in Hwf.
  destruct Hwf as [(-> & _)|[-> _]]; auto.
Qed.

Lemma step_headerSent cfg s op :
  wroteHeader s = true → headerSent (step cfg s op) = headerSent s.
Proof.
  intros Hwh. by destruct (step_shape cfg s op Hwh) as (? & ? & ? & ? & -> & _).
Qed.

(** A call other than [Close] on a wrapper whose header is written. *)
Lemma step_written_orderly cfg s op :
  wroteHeader s = true → wellFormed s → isClose op = false →
  ∃ evs, calls (ResponseWriter (step cfg s op)) = calls (ResponseWriter s) ++ evs
         ∧ orderly (headerSent s) evs (headerSent (step cfg s op)).
Proof.
  intros Hwh Hwf Hop. rewrite step_headerSent by done.
  assert (∃ evs, calls (ResponseWriter s) = calls (ResponseWriter s) ++ evs
                 ∧ orderly (headerSent s) evs (headerSent s)) as Hnone.
  { exists []. split; [by rewrite app_nil_r|apply orderly_nil]. }
  destruct op as [f|code|p| |]; cbn [step]; [done| | | |done].
  - unfold WriteHeader. by rewrite Hwh.
  - unfold Write. destruct (err s); [done|]. rewrite Hwh. unfold wWrite.
    destruct (wellFormed_w s Hwf Hwh) as [Hw|Hw]; rewrite Hw.
    + cbn. destruct (rw_write _ _) as [n e]. cbn.
      exists ((EvWrite <$> [p]) ++ []). split; [done|].
      apply (orderly_writes _ [p] []); [by left|].
      by rewrite (wellFormed_passthrough s).
    + destruct (zCall _ s) as [[s1 e1]|] eqn:Hc; [|done].
      destruct (zCall_shape _ _ _ _ Hc) as (st & dst & _ & _ & Hz & _).
      destruct (zCall_events _ _ _ _ _ _ Hz Hc) as (k & Hk).
      eexists ((EvWrite <$> _) ++ []).
      split; [destruct e1; cbn [after set_err ResponseWriter];
              rewrite Hk, app_nil_r; reflexivity|].
      apply (orderly_writes _ _ []); [by left|].
      intros Hcm. by rewrite (wellFormed_dst s st dst).
  - unfold Flush. destruct (err s); [done|].
    destruct (z s) as [| |st0 dst0] eqn:Hz.
    + exists ((EvWrite <$> []) ++ (if rw_flusher then [EvFlush] else [])).
      split; [apply flushConn_conn|].
      apply (orderly_writes _ []); [apply flush_events|done].
    + by rewrite zCall_zNilPtr.
    + destruct (zCall z_flush s) as [[s1 e1]|] eqn:Hc; [|done].
      destruct (zCall_events _ _ _ _ _ _ Hz Hc) as (k & Hk).
      eexists ((EvWrite <$> _) ++ (if rw_flusher then [EvFlush] else [])).
      split.
      * cbn [after]. destruct (flushConn_conn (set_err
          (Wrap e1 "Flushing compressResponseWriter failed") s1)) as [_ ->].
        cbn [set_err ResponseWriter]. rewrite Hk, <-app_assoc. reflexivity.
      * apply orderly_writes; [apply flush_events|].
        intros Hcm. by rewrite (wellFormed_dst s st0 dst0).
Qed.

Lemma WriteHeader_new_returns cfg rw comp lvl code :
  0 ≤ CompressMaxBuf cfg →
  ∃ s1, WriteHeader cfg (newCompressResponseWriter rw comp lvl) code = Done tt s1.
Proof.
  intros Hmax. rewrite WriteHeader_new. cbv zeta.
  destruct (checkIsCompressable _ _ _); [|eauto].
  destruct (getContentLength _ <? _); [|eauto].
  destruct (CompressMaxBuf cfg <? 0) eqn:Hneg; [|eauto].
  apply Z.ltb_lt in Hneg. lia.
Qed.

(** The first [WriteHeader]: the connection gets the commit unless the
    response is buffered. *)
Lemma WriteHeader_new_orderly cfg rw comp lvl code :
  0 ≤ CompressMaxBuf cfg →
  let s1 := after (WriteHeader cfg (newCompressResponseWriter rw comp lvl) code) in
  ∃ evs, calls (ResponseWriter s1) = calls rw ++ evs
         ∧ orderly false evs (headerSent s1).
Proof.
  intros Hmax. rewrite WriteHeader_new. cbv zeta.
  destruct (checkIsCompressable _ _ _).
  - destruct (getContentLength _ <? _).
    + destruct (CompressMaxBuf cfg <? 0) eqn:Hneg.
      { apply Z.ltb_lt in Hneg. lia. }
      exists []. cbn. by rewrite app_nil_r.
    + eexists [_]. by cbn.
  - eexists [_]. by cbn.
Qed.

(** A write that finds the header unwritten goes on, after the implicit
    [WriteHeader], as a write on the wrapper that one left. *)
Lemma Write_new_Done cfg rw comp lvl p s1 :
  let s := newCompressResponseWriter rw comp lvl in
  WriteHeader cfg s StatusOK = Done tt s1 →
  after (Write cfg s p) = after (Write cfg s1 p).
Proof.
  intros s Hs1.
  pose proof (WriteHeader_unopened cfg rw comp lvl StatusOK) as Hun.
  pose proof (wroteHeader_WriteHeader cfg s StatusOK) as Hwh.
  fold s in Hun. cbv zeta in Hun.
  unfold Write at 1. cbn [s newCompressResponseWriter err wroteHeader].
  fold s. rewrite Hs1 in *. cbn [after] in *.
  unfold Write. rewrite Hwh.
  destruct (err s1) as [e|] eqn:He; [|done].
  destruct Hun as [Hw Hz]; [done|]. by rewrite (wWrite_unopened s1 p).
Qed.

Lemma Write_new cfg rw comp lvl p :
  0 ≤ CompressMaxBuf cfg →
  let s := newCompressResponseWriter rw comp lvl in
  after (Write cfg s p)
  = after (Write cfg (after (WriteHeader cfg s StatusOK)) p).
Proof.
  intros Hmax s.
  destruct (WriteHeader_new_returns cfg rw comp lvl StatusOK Hmax) as [s1 Hs1].
  fold s in Hs1. rewrite Hs1. by apply Write_new_Done.
Qed.

(** Any call other than [Close] keeps the order of the calls on the
    connection. *)
Lemma step_orderly cfg s op :
  0 ≤ CompressMaxBuf cfg → wellFormed s → isClose op = false →
  ∃ evs, calls (ResponseWriter (step cfg s op)) = calls (ResponseWriter s) ++ evs
         ∧ orderly (headerSent s) evs (headerSent (step cfg s op)).
Proof.
  intros Hmax Hwf Hop.
  destruct (wroteHeader s) eqn:Hwh; [by apply step_written_orderly|].
  pose proof Hwf as Hnew. unfold wellFormed in Hnew. rewrite Hwh in Hnew.
  assert (headerSent s = false) as -> by (unfold headerSent; by rewrite Hwh).
  destruct op as [f|code|p| |]; cbn [step]; [| | | |done].
  - exists []. rewrite Hnew. cbn. by rewrite app_nil_r.
  - rewrite Hnew. apply WriteHeader_new_orderly, Hmax.
  - rewrite Hnew, Write_new by done.
    destruct (WriteHeader_new_orderly cfg (ResponseWriter s) (c s) (level s)
                StatusOK Hmax) as (evs1 & Hc1 & Ho1).
    cbv zeta in Hc1, Ho1. rewrite <-Hnew in *.
    set (s1 := after (WriteHeader cfg s StatusOK)) in *.
    destruct (step_written_orderly cfg s1 (callWrite p)) as (evs2 & Hc2 & Ho2);
      [apply wroteHeader_WriteHeader|by apply wellFormed_WriteHeader|done|].
    cbn [step] in Hc2, Ho2. exists (evs1 ++ evs2). split.
    + by rewrite Hc2, Hc1, app_assoc.
    + by eapply orderly_app.
  - rewrite Hnew. unfold Flush. cbn [newCompressResponseWriter err z after].
    eexists. split; [apply flushConn_conn|].
    apply (orderly_writes false [] _ flush_events). done.
Qed.

Lemma run_orderly cfg ops :
  0 ≤ CompressMaxBuf cfg → Forall (λ op, isClose op = false) ops →
  ∀ s, wellFormed s →
  ∃ evs, calls (ResponseWriter (run cfg ops s)) = calls (ResponseWriter s) ++ evs
         ∧ orderly (headerSent s) evs (headerSent (run cfg ops s)).
Proof.
  intros Hmax. induction 1 as [|op ops Hop _ IH]; intros s Hwf.
  { exists []. cbn. split; [by rewrite app_nil_r|apply orderly_nil]. }
  destruct (step_orderly cfg s op Hmax Hwf Hop) as (evs1 & Hc1 & Ho1).
  destruct (IH (step cfg s op)) as (evs2 & Hc2 & Ho2);
    [by apply wellFormed_step|].
  exists (evs1 ++ evs2). split.
  - change (run cfg (op :: ops) s) with (run cfg ops (step cfg s op)).
    by rewrite Hc2, Hc1, app_assoc.
  - by eapply orderly_app.
Qed.

(** [Close] adds at most the commit of a buffered response, ahead of its
    body. *)
Lemma Close_orderly s :
  wellFormed s →
  ∃ evs, calls (ResponseWriter (after (Close s))) = calls (ResponseWriter s) ++ evs
         ∧ (countCommits evs ≤ if headerSent s then 0 else 1)%nat
         ∧ bodyAfterCommit (headerSent s) evs = true.
Proof.
  intros Hwf.
  assert (∀ s' (l : list bytes),
            calls (ResponseWriter s') = calls (ResponseWriter s) ++ (EvWrite <$> l) →
            (headerSent s = false → l = []) →
            ∃ evs, calls (ResponseWriter (flushConn s'))
                   = calls (ResponseWriter s) ++ evs
                   ∧ (countCommits evs ≤ if headerSent s then 0 else 1)%nat
                   ∧ bodyAfterCommit (headerSent s) evs = true) as Hend.
  { intros s' l Hs' Hl.
    exists ((EvWrite <$> l) ++ (if rw_flusher then [EvFlush] else [])).
    destruct (flushConn_conn s') as [_ ->]. rewrite Hs', <-app_assoc.
    destruct (orderly_writes (headerSent s) l _ flush_events Hl) as (-> & _ & ->).
    split_and!; [done| |done]. destruct (headerSent s); cbn; lia. }
  unfold Close. destruct (err s) eqn:He.
  { exists []. cbn. rewrite app_nil_r.
    split_and!; [done| |done]. destruct (headerSent s); lia. }
  destruct (z s) as [| |st dst] eqn:Hz.
  - apply (Hend s []); [by rewrite app_nil_r|done].
  - rewrite zCall_zNilPtr by done. apply (Hend s []); [by rewrite app_nil_r|done].
  - destruct (zCall z_close s) as [[s1 e1]|] eqn:Hc;
      [|apply (Hend s []); [by rewrite app_nil_r|done]].
    destruct (zCall_events _ _ _ _ _ _ Hz Hc) as (k & Hk).
    destruct (zCall_shape _ _ _ _ Hc) as (st' & dst' & rw1 & b1 & _ & Hs1).
    assert (wroteHeader s = true) as Hwh.
    { destruct (wroteHeader s) eqn:Hwh; [done|].
      unfold wellFormed in Hwf. rewrite Hwh in Hwf. rewrite Hwf in Hz. done. }
    assert (dst = if isBuffered s then wBuf else wResponseWriter) as Hdst.
    { unfold wellFormed, opened in Hwf. rewrite Hwh, Hz in Hwf.
      destruct Hwf as [(_ & ? & _)|[_ ?]]; done. }
    cbn [err set_err]. destruct e1 as [e1|]; cbn [Wrap].
    { eapply (Hend _ _ Hk). intros Hcm. by rewrite (wellFormed_dst s st dst). }
    cbn [isBuffered set_err].
    assert (isBuffered s1 = isBuffered s) as -> by (by rewrite Hs1).
    destruct (isBuffered s) eqn:Hb.
    + subst dst. cbn [fmap list_fmap] in Hk. rewrite app_nil_r in Hk.
      assert (headerSent s = false) as -> by (unfold headerSent; by rewrite Hwh, Hb).
      match goal with |- context [bufWriteTo ?t] => set (s2 := t) end.
      destruct (bufWriteTo_conn s2) as [_ Hw].
      assert (calls (ResponseWriter s2)
              = calls (ResponseWriter s1)
                  ++ [EvWriteHeader (code s1)
                        (Set_ (header (ResponseWriter s1)) hdrContentLength
                              (Itoa (bufLen (buf s1))))]) as Hs2 by done.
      rewrite Hs2, Hk in Hw.
      set (body := match data (buf s2) with
                   | [] => []
                   | _ :: _ => [EvWrite (data (buf s2))]
                   end) in *.
      assert (countCommits body = O) as Hbody
        by (subst body; by destruct (data (buf s2))).
      clearbody body s2.
      exists ([EvWriteHeader (code s1)
                 (Set_ (header (ResponseWriter s1)) hdrContentLength
                       (Itoa (bufLen (buf s1))))]
              ++ body ++ (if rw_flusher then [EvFlush] else [])).
      split.
      * destruct (bufWriteTo s2) as [e2 s3|s3]; cbn [after] in Hw |- *.
        -- destruct (flushConn_conn (set_err e2 s3)) as [_ ->].
           cbn [set_err ResponseWriter]. by rewrite Hw, <-!app_assoc.
        -- destruct (flushConn_conn s3) as [_ ->].
           by rewrite Hw, <-!app_assoc.
      * cbn [app countCommits bodyAfterCommit].
        rewrite countCommits_app, bodyAfterCommit_true. split; [|done].
        rewrite Hbody. destruct rw_flusher; cbn; lia.
    + eapply (Hend _ _ Hk). intros Hcm. by rewrite (wellFormed_dst s st dst).
Qed.

(** What a handler does to the wrapper is a sequence of calls on it, none
    of them [Close]. *)
Lemma serveCrw_run cfg h : ∀ s,
  ∃ ops, Forall (λ op, isClose op = false) ops
         ∧ fst (serveCrw cfg h s) = run cfg ops s.
Proof.
  induction h as [| |f k IH|k IH|code k IH|p k IH|k IH]; intros s; cbn [serveCrw].
  - by exists [].
  - by exists [].
  - destruct (IH (set_header (f (header (ResponseWriter s))) s)) as (ops & Hops & ->).
    exists (callHeader f :: ops). split; [by constructor|done].
  - apply IH.
  - destruct (WriteHeader cfg s code) as [[] s'|s'] eqn:Hw.
    + destruct (IH s') as (ops & Hops & ->).
      exists (callWriteHeader code :: ops). split; [by constructor|].
      cbn. by rewrite Hw.
    + exists [callWriteHeader code]. split; [by repeat constructor|].
      cbn. by rewrite Hw.
  - destruct (Write cfg s p) as [res s'|s'] eqn:Hw.
    + destruct (IH res s') as (ops & Hops & ->).
      exists (callWrite p :: ops). split; [by constructor|].
      cbn. by rewrite Hw.
    + exists [callWrite p]. split; [by repeat constructor|].
      cbn. by rewrite Hw.
  - destruct (Flush s) as [[] s'|s'] eqn:Hw.
    + destruct (IH s') as (ops & Hops & ->).
      exists (callFlush :: ops). split; [by constructor|].
      cbn. by rewrite Hw.
    + exists [callFlush]. split; [by repeat constructor|].
      cbn. by rewrite Hw.
Qed.

Lemma New_conn cfg h rw r :
  checkAcceptEncoding (reqHeader r) ≠ compNone →
  conn (New cfg h rw r)
  = ResponseWriter
      (after (Close (fst (serveCrw cfg (h r)
                            (newCompressResponseWriter rw
                               (checkAcceptEncoding (reqHeader r))
                               BestCompression))))).
Proof.
  intros Hc. unfold New. cbv zeta. destruct (decide _) as [|_]; [done|].
  destruct (serveCrw _ _ _) as [s p]. cbn [fst]. by destruct (Close s).
Qed.

(** X7.  Whatever the handler does with the writer [New] gives it, the
    connection gets at most one [WriteHeader], and no [Write] ahead of
    it. *)
Theorem New_commit_order cfg h rw r :
  0 ≤ CompressMaxBuf cfg →
  checkAcceptEncoding (reqHeader r) ≠ compNone →
  ∃ evs, calls (conn (New cfg h rw r)) = calls rw ++ evs
         ∧ (countCommits evs ≤ 1)%nat
         ∧ bodyAfterCommit false evs = true.
Proof.
  intros Hmax Hc. rewrite New_conn by done.
  set (s0 := newCompressResponseWriter _ _ _).
  destruct (serveCrw_run cfg (h r) s0) as (ops & Hops & ->).
  destruct (run_orderly cfg ops Hmax Hops s0 (wellFormed_new _ _ _))
    as (evs1 & Hc1 & Hn1 & _ & Hb1).
  destruct (Close_orderly (run cfg ops s0)) as (evs2 & Hc2 & Hn2 & Hb2).
  { apply wellFormed_run, wellFormed_new. }
  change (headerSent s0) with false in *.
  exists (evs1 ++ evs2). rewrite Hc2, Hc1, <-app_assoc. split; [done|].
  rewrite countCommits_app, bodyAfterCommit_app, Hb1, Hn1.
  destruct (headerSent (run cfg ops s0)); cbn in *.
  - split; [lia|apply bodyAfterCommit_true].
  - split; [lia|done].
Qed.

(** X8.  While a response is buffered the connection gets no header and
    no body: calls other than [Close] reach it as flushes only. *)
Theorem buffered_is_silent cfg ops rw comp lvl :
  0 ≤ CompressMaxBuf cfg → Forall (λ op, isClose op = false) ops →
  let s := run cfg ops (newCompressResponseWriter rw comp lvl) in
  isBuffered s = true →
  ∃ evs, calls (ResponseWriter s) = calls rw ++ evs
         ∧ Forall (λ ev, ev = EvFlush) evs.
Proof.
  intros Hmax Hops s Hb.
  destruct (run_orderly cfg ops Hmax Hops _ (wellFormed_new rw comp lvl))
    as (evs & Hc & Hn & _ & Hbody).
  exists evs. split; [done|]. fold s in Hn.
  assert (headerSent s = false) as Hcm by (unfold headerSent; by rewrite Hb, andb_false_r).
  rewrite Hcm in Hn. cbn in Hn, Hbody. clear -Hn Hbody.
  induction evs as [|[] evs IH]; cbn in *; [done|done|done|].
  constructor; [done|by apply IH].
Qed.

(** *** The buffered response *)

Lemma step_code cfg s op :
  wellFormed s → (isBuffered s = true → code s = StatusOK) →
  isBuffered (step cfg s op) = true → code (step cfg s op) = StatusOK.
Proof.
  intros Hwf Hinv.
  destruct (wroteHeader s) eqn:Hwh.
  { destruct (step_shape cfg s op Hwh) as (zv & rw & b & e & -> & _). exact Hinv. }
  unfold wellFormed in Hwf. rewrite Hwh in Hwf.
  assert (∀ code0, let s1 := after (WriteHeader cfg s code0) in
                   isBuffered s1 = true → code s1 = StatusOK) as Hfirst.
  { intros code0. rewrite Hwf, WriteHeader_new. cbv zeta.
    destruct (checkIsCompressable _ _ _) eqn:Hel; [|done].
    apply checkIsCompressable_code in Hel as ->.
    destruct (getContentLength _ <? _); [|done].
    by destruct (CompressMaxBuf cfg <? 0). }
  destruct op as [f|code0|p| |]; cbn [step].
  - by rewrite Hwf.
  - apply Hfirst.
  - destruct (WriteHeader cfg s StatusOK) as [[] s1|s1] eqn:Hs1.
    + specialize (Hfirst StatusOK). rewrite Hs1 in Hfirst. cbn [after] in Hfirst.
      rewrite Hwf in Hs1 |- *. rewrite (Write_new_Done _ _ _ _ _ _ Hs1).
      assert (wroteHeader s1 = true) as Hwh1.
      { pose proof (wroteHeader_WriteHeader cfg
                      (newCompressResponseWriter (ResponseWriter s) (c s) (level s))
                      StatusOK) as Hw. by rewrite Hs1 in Hw. }
      destruct (step_shape cfg s1 (callWrite p) Hwh1) as (zv & rw & b & e & Hst & _).
      cbn [step] in Hst. rewrite Hst. exact Hfirst.
    + specialize (Hfirst StatusOK). rewrite Hs1 in Hfirst. cbn [after] in Hfirst.
      unfold Write. rewrite Hwh, Hs1.
      replace (err s) with (@None error) by (by rewrite Hwf). exact Hfirst.
  - by rewrite Hwf.
  - by rewrite Hwf.
Qed.

(** X9.  The status a buffered response keeps for [Close] is 200: in
    every state a sequence of calls can reach, a wrapper that buffers has
    [http.StatusOK] in [crw.code]. *)
Theorem buffered_code_OK cfg ops rw comp lvl :
  let s := run cfg ops (newCompressResponseWriter rw comp lvl) in
  isBuffered s = true → code s = StatusOK.
Proof.
  cbv zeta. generalize (wellFormed_new rw comp lvl).
  assert (isBuffered (newCompressResponseWriter rw comp lvl) = true →
          code (newCompressResponseWriter rw comp lvl) = StatusOK) as Hinv by done.
  revert Hinv. generalize (newCompressResponseWriter rw comp lvl).
  induction ops as [|op ops IH]; intros s Hinv Hwf; [done|].
  apply IH; [by apply step_code|by apply wellFormed_step].
Qed.

Lemma run_writes_err cfg ps s e :
  err s = Some e → run cfg (callWrite <$> ps) s = s.
Proof.
  intros He. induction ps as [|p ps IH]; [done|].
  cbn. unfold Write. rewrite He. exact IH.
Qed.

(** X10.  Writes into the buffer add up.  On a wrapper whose stream is open
    on the buffer, a sequence of writes leaves the connection as it was;
    the buffer grows by what the stream made of the payloads, in order, up
    to and including the first write the stream fails; the error of that
    write, wrapped, is kept, and the later payloads are not fed. *)
Theorem buffered_writes_accumulate cfg ps : ∀ s st,
  err s = None → wroteHeader s = true → w s = wZ → z s = zOpen st wBuf →
  let s' := run cfg (callWrite <$> ps) s in
  z s' = zOpen (feed st ps).1.1 wBuf
  ∧ data (buf s') = data (buf s) ++ (feed st ps).1.2
  ∧ err s' = Wrap (feed st ps).2 "Write in compressResponseWriter failed"
  ∧ ResponseWriter s' = ResponseWriter s.
Proof.
  induction ps as [|p ps IH]; intros s st He Hwh Hw Hz; cbv zeta.
  { cbn. by rewrite app_nil_r. }
  destruct (Write_buffering cfg s p st He Hwh Hw Hz) as (b & HW & Hb).
  change (run cfg (callWrite <$> p :: ps) s)
    with (run cfg (callWrite <$> ps) (after (Write cfg s p))).
  rewrite HW. cbn [after feed].
  destruct (zr_err (z_write st p)) as [e|] eqn:Hze; cbn [Wrap] in *.
  - rewrite (run_writes_err _ _ _ (ErrWrap e "Write in compressResponseWriter failed"))
      by done.
    by cbn.
  - match goal with |- context [run cfg _ ?t] => set (s1 := t) end.
    destruct (IH s1 (zr_state (z_write st p))) as (Hz' & Hd' & He' & Hr'); [done..|].
    cbv zeta in *. destruct (feed (zr_state (z_write st p)) ps) as [[st' out] e'].
    cbn [fst snd] in *. rewrite Hz', Hd', He', Hr'. subst s1. cbn.
    by rewrite Hb, app_assoc.
Qed.

(** X11.  A request served with a codec on a connection that can flush:
    when nothing is logged, the last call on the connection is the flush
    of the deferred [Close], whether the handler returned or panicked. *)
Theorem New_flush_last cfg h rw r :
  checkAcceptEncoding (reqHeader r) ≠ compNone →
  rw_flusher = true →
  logged (New cfg h rw r) = [] →
  last (calls (conn (New cfg h rw r))) = Some EvFlush.
Proof.
  intros Hc Hf. unfold New. cbv zeta. destruct (decide _) as [|_]; [done|].
  destruct (serveCrw _ _ _) as [s p].
  destruct (err s) as [e|] eqn:He.
  { unfold Close. by rewrite He. }
  destruct (Close_conn s He) as (evs & Hcalls). rewrite Hf in Hcalls.
  intros _.
  assert (last (calls (ResponseWriter (after (Close s)))) = Some EvFlush) as Hl
    by (by rewrite Hcalls, app_assoc, last_snoc).
  by destruct (Close s).
Qed.

End MoreSinkProperties.

(** * The theorems at work *)


(** One write into the buffer, then the close. *)
Lemma Close_buffered_text :
  let s := @run (toyEnv 1 true) defaults [callWrite hello]
             (newCompressResponseWriter (freshConn (textHeader "1000")) compGzip 9) in
  err s = None ∧ isBuffered s = true ∧ ∃ st, z s = zOpen st wBuf.
Proof.
  intros s.
  assert (err s = None) as He by (vm_compute; reflexivity).
  assert (isBuffered s = true) as Hb by (vm_compute; reflexivity).
  split_and!; [done..|].
  destruct (@Close_buffered (toyEnv 1 true) defaults
              (freshConn (textHeader "1000")) compGzip 9 [callWrite hello] He Hb)
    as (st & Hz & _).
  by exists st.
Defined.

(** A connection that refuses every write.  On a pass-through response
    the first write fails, and the close that follows returns its error.
    On a streamed response the close of the stream fails to hand its last
    bytes on, and [Close] keeps and returns that error, wrapped.  On a
    buffered response the stream closes, the copy of the buffer fails, and
    [Close] keeps and returns the error of the copy. *)
Lemma sticky_error_after_failed_write :
  let s := @run (toyEnv 0 true) defaults [callWrite hello]
             (newCompressResponseWriter (freshConn ∅) compGzip 9) in
  let e := ErrWrap (ErrExt 0) "Write in compressResponseWriter failed" in
  let t := @run (toyEnv 0 true) defaults [callWriteHeader StatusOK]
             (newCompressResponseWriter (freshConn (textHeader "20000")) compGzip 9) in
  let et := ErrWrap (ErrExt 0) "Closing compressResponseWriter failed" in
  let u := @run (toyEnv 0 true) defaults [callWrite hello]
             (newCompressResponseWriter (freshConn (textHeader "1000")) compGzip 9) in
  (err s = Some e ∧ @Close (toyEnv 0 true) s = Done (Some e) s)
  ∧ (err t = None
     ∧ ∃ t', @Close (toyEnv 0 true) t = Done (Some et) t' ∧ err t' = Some et)
  ∧ (err u = None ∧ isBuffered u = true
     ∧ ∃ u', @Close (toyEnv 0 true) u = Done (Some (ErrExt 0)) u'
             ∧ err u' = Some (ErrExt 0)).
Proof.
  intros s e t et u.
  assert (err s = Some e) as He by (vm_compute; reflexivity).
  assert (err t = None) as Het by (vm_compute; reflexivity).
  assert (err u = None) as Heu by (vm_compute; reflexivity).
  assert (isBuffered u = true) as Hbu by (vm_compute; reflexivity).
  split_and!; [done| |done| |done..|].
  - destruct (@sticky_error (toyEnv 0 true) defaults (freshConn ∅) compGzip 9
                [callWrite hello]) as (_ & _ & _ & _ & _ & _ & Hs).
    by destruct (Hs e He) as (_ & _ & _ & Hclose).
  - destruct (@sticky_error (toyEnv 0 true) defaults
                (freshConn (textHeader "20000")) compGzip 9
                [callWriteHeader StatusOK]) as (_ & _ & _ & Hrec & _).
    set (t1 := match @zCall (toyEnv 0 true) z_close t with
               | Some (x, _) => x
               | None => t
               end).
    assert (@zCall (toyEnv 0 true) z_close t = Some (t1, Some (ErrExt 0))) as Hc
      by (vm_compute; reflexivity).
    specialize (Hrec t1 (Some (ErrExt 0)) Het Hc). cbv zeta in Hrec.
    eexists. split; [exact Hrec|done].
  - destruct (@sticky_error (toyEnv 0 true) defaults
                (freshConn (textHeader "1000")) compGzip 9
                [callWrite hello]) as (_ & _ & _ & Hrec & _).
    set (u1 := match @zCall (toyEnv 0 true) z_close u with
               | Some (x, _) => x
               | None => u
               end).
    assert (@zCall (toyEnv 0 true) z_close u = Some (u1, None)) as Hc
      by (vm_compute; reflexivity).
    specialize (Hrec u1 None Heu Hc). cbv beta iota zeta in Hrec.
    fold u in Hrec. rewrite Hbu in Hrec.
    match type of Hrec with
    | ∀ e s3, bufWriteTo ?x = _ → _ =>
        exists (flushConn (set_err (Some (ErrExt 0)) (after (bufWriteTo x))));
        split; [apply Hrec; vm_compute; reflexivity|done]
    end.
Defined.

(** C6, as worded, fails: a handler that has added Cookie to Vary finds,
    after the commit of an eligible response, Accept-Encoding alone; Cookie
    is not kept beside it. *)
Lemma WriteHeader_Vary_replaced :
  let hdr := Add (textHeader "1000") hdrVary "Cookie" in
  let s' := after (@WriteHeader (toyEnv 1 true) defaults
                     (newCompressResponseWriter (freshConn hdr) compGzip 9)
                     StatusOK) in
  checkIsCompressable defaults StatusOK hdr = true
  ∧ hdr !! hdrVary = Some ["Cookie"]
  ∧ header (ResponseWriter s') !! hdrVary = Some ["Accept-Encoding"]
  ∧ "Cookie" ∉ default [] (header (ResponseWriter s') !! hdrVary).
Proof.
  intros hdr s'.
  assert (header (ResponseWriter s') !! hdrVary = Some ["Accept-Encoding"]) as Hv
    by (vm_compute; reflexivity).
  split_and!; [vm_compute; reflexivity..|done|].
  rewrite Hv. cbn. by intros [=]%list_elem_of_singleton.
Qed.

Lemma WriteHeader_sets_Vary_text :
  let s := @run (toyEnv 1 true) defaults []
             (newCompressResponseWriter (freshConn (textHeader "1000")) compGzip 9) in
  let s' := after (@WriteHeader (toyEnv 1 true) defaults s StatusOK) in
  wroteHeader s = false
  ∧ @WriteHeader (toyEnv 1 true) defaults s StatusOK = Done tt s'
  ∧ checkIsCompressable defaults StatusOK (header (ResponseWriter s)) = true
  ∧ header (ResponseWriter s') !! hdrVary = Some [hdrAcceptEncoding].
Proof.
  intros s s'.
  assert (wroteHeader s = false) as Hwh by (vm_compute; reflexivity).
  assert (@WriteHeader (toyEnv 1 true) defaults s StatusOK = Done tt s') as HW
    by (vm_compute; reflexivity).
  assert (checkIsCompressable defaults StatusOK (header (ResponseWriter s)) = true)
    as Hel by (vm_compute; reflexivity).
  split_and!; [done..|].
  exact (@WriteHeader_sets_Vary (toyEnv 1 true) defaults
           (freshConn (textHeader "1000")) compGzip 9 [] StatusOK s' Hwh HW Hel).
Defined.

(** The first write on a fresh wrapper. *)
Lemma Write_forwards_first_write :
  compDeflate ≠ compNone
  ∧ HuffmanOnly ≤ 9 ≤ BestCompression
  ∧ 0 ≤ CompressMaxBuf defaults
  ∧ ∃ n e s2,
      @Write (toyEnv 1 true) defaults
        (newCompressResponseWriter (freshConn (textHeader "20000")) compDeflate 9)
        hello = Done (n, e) s2
      ∧ err s2 = e.
Proof.
  assert (compDeflate ≠ compNone) as Hc by done.
  assert (HuffmanOnly ≤ 9 ≤ BestCompression) as Hl
    by (unfold HuffmanOnly, BestCompression; lia).
  assert (0 ≤ CompressMaxBuf defaults) as Hb by (cbn; lia).
  split_and!; [done..|].
  pose proof (@Write_forwards (toyEnv 1 true) defaults
                (freshConn (textHeader "20000")) compDeflate 9 [] hello Hc Hl Hb)
    as Hw.
  cbn [run fold_left newCompressResponseWriter err] in Hw.
  by destruct Hw as (s1 & _ & _ & _ & Hdone).
Defined.

(** C8, as worded, fails: on a connection that can flush, a close that
    finds the error of a failed write returns it and calls nothing; the
    connection has seen the commit and the write, and no flush. *)
Lemma Close_after_error_no_flush :
  let s := @run (toyEnv 0 true) defaults [callWrite hello]
             (newCompressResponseWriter (freshConn ∅) compGzip 9) in
  @rw_flusher (toyEnv 0 true) = true
  ∧ err s = Some (ErrWrap (ErrExt 0) "Write in compressResponseWriter failed")
  ∧ calls (ResponseWriter (after (@Close (toyEnv 0 true) s)))
    = [EvWriteHeader StatusOK ∅; EvWrite hello].
Proof. vm_compute. done. Qed.

(** A client that accepts brotli and identity only. *)
Lemma New_without_codec_brotli :
  let r := {| reqHeader := Set_ ∅ hdrAcceptEncoding "br, identity" |} in
  let h := λ _ : Request, hWrite hello (λ _, hReturn) in
  (∀ t, t ∈ Split (Get (reqHeader r) hdrAcceptEncoding) →
        TrimSpace t ≠ "gzip" ∧ TrimSpace t ≠ "deflate")
  ∧ @New (toyEnv 1 true) defaults h (freshConn ∅) r
    = {| conn := {| header := ∅; calls := [EvWrite hello] |};
         panicked := false; logged := [] |}.
Proof.
  intros r h.
  assert (∀ t, t ∈ Split (Get (reqHeader r) hdrAcceptEncoding) →
               TrimSpace t ≠ "gzip" ∧ TrimSpace t ≠ "deflate") as Hall.
  { intros t Ht. change (t ∈ ["br"; " identity"]) in Ht.
    apply elem_of_cons in Ht as [-> | Ht]; [done|].
    apply list_elem_of_singleton in Ht as ->. done. }
  split; [done|].
  by rewrite (@New_without_codec (toyEnv 1 true) defaults h (freshConn ∅) r
                (or_intror (or_intror Hall))).
Defined.


(** ** Further properties at work *)

Lemma checkAcceptEncoding_first_match_quality :
  let hdr : Header := Set_ ∅ hdrAcceptEncoding "br, deflate;q=0.5 , GZIP,gzip , deflate" in
  let pre := ["br"; " deflate;q=0.5 "; " GZIP"] in
  Split (Get hdr hdrAcceptEncoding) = pre ++ "gzip " :: [" deflate"]
  ∧ (∀ u, u ∈ pre → TrimSpace u ∉ compStrings)
  ∧ TrimSpace "gzip " = compString compGzip
  ∧ checkAcceptEncoding hdr = compGzip.
Proof.
  intros hdr pre.
  assert (Split (Get hdr hdrAcceptEncoding) = pre ++ "gzip " :: [" deflate"])
    as Hs by (vm_compute; reflexivity).
  assert (∀ u, u ∈ pre → TrimSpace u ∉ compStrings) as Hpre.
  { intros u Hu Hin. subst pre.
    repeat (apply elem_of_cons in Hu as [->|Hu];
            [vm_compute in Hin;
             repeat (apply elem_of_cons in Hin as [Hin|Hin]; [discriminate|]);
             by apply elem_of_nil in Hin|]).
    by apply elem_of_nil in Hu. }
  assert (TrimSpace "gzip " = compString compGzip) as Ht by (vm_compute; reflexivity).
  split_and!; [done..|].
  exact (checkAcceptEncoding_first_match hdr pre [" deflate"] "gzip " compGzip
           Hs Hpre Ht).
Defined.

(** A streamed response: after the commit the handler writes, flushes,
    tries another status and closes. *)
Lemma decision_is_permanent_streamed :
  let s := after (@WriteHeader (toyEnv 1 true) defaults
                    (newCompressResponseWriter (freshConn (textHeader "20000"))
                       compGzip 9) StatusOK) in
  let s' := @run (toyEnv 1 true) defaults
              [callWrite hello; callFlush; callWriteHeader 404; callClose] s in
  wroteHeader s = true
  ∧ wroteHeader s' = true ∧ w s' = w s ∧ isBuffered s' = isBuffered s
  ∧ code s' = code s
  ∧ ∃ st', z s' = zOpen st' wResponseWriter.
Proof.
  intros s s'.
  assert (wroteHeader s = true) as Hwh by (vm_compute; reflexivity).
  assert (z s = @zOpen (toyEnv 1 true) false wResponseWriter) as Hz by (vm_compute; reflexivity).
  split; [done|].
  pose proof (@decision_is_permanent (toyEnv 1 true) defaults s
                [callWrite hello; callFlush; callWriteHeader 404; callClose] Hwh)
    as Hp.
  cbv zeta in Hp. rewrite Hz in Hp.
  destruct Hp as (H1 & H2 & H3 & H4 & H5). by split_and!.
Defined.

(** A small text response asked for with gzip: the handler declares it,
    writes it in two pieces and flushes in between. *)
Lemma New_commit_order_gzip :
  let r := {| reqHeader := Set_ ∅ hdrAcceptEncoding "gzip" |} in
  let h := λ _ : Request,
             hHeader (λ _, textHeader "1000")
               (hWrite hello (λ _, hFlush (hWrite hello (λ _, hReturn)))) in
  0 ≤ CompressMaxBuf defaults
  ∧ checkAcceptEncoding (reqHeader r) ≠ compNone
  ∧ ∃ evs, calls (conn (@New (toyEnv 1 true) defaults h (freshConn ∅) r))
           = calls (freshConn ∅) ++ evs
           ∧ (countCommits evs ≤ 1)%nat
           ∧ bodyAfterCommit false evs = true.
Proof.
  intros r h.
  assert (0 ≤ CompressMaxBuf defaults) as Hb by (cbn; lia).
  assert (checkAcceptEncoding (reqHeader r) ≠ compNone) as Hc
    by (vm_compute; discriminate).
  split_and!; [done..|].
  exact (@New_commit_order (toyEnv 1 true) defaults h (freshConn ∅) r Hb Hc).
Defined.

(** A buffered response, written to and flushed. *)
Lemma buffered_is_silent_text :
  let ops := [callWrite hello; callFlush; callWrite hello] in
  let s := @run (toyEnv 1 true) defaults ops
             (newCompressResponseWriter (freshConn (textHeader "1000")) compGzip 9) in
  0 ≤ CompressMaxBuf defaults
  ∧ Forall (λ op, isClose op = false) ops
  ∧ isBuffered s = true
  ∧ ∃ evs, calls (ResponseWriter s) = calls (freshConn (textHeader "1000")) ++ evs
           ∧ Forall (λ ev, ev = EvFlush) evs.
Proof.
  intros ops s.
  assert (0 ≤ CompressMaxBuf defaults) as Hb by (cbn; lia).
  assert (Forall (λ op, isClose op = false) ops) as Hops by (by repeat constructor).
  assert (isBuffered s = true) as Hbuf by (vm_compute; reflexivity).
  split_and!; [done..|].
  exact (@buffered_is_silent (toyEnv 1 true) defaults ops
           (freshConn (textHeader "1000")) compGzip 9 Hb Hops Hbuf).
Defined.

Lemma buffered_code_OK_text :
  let s := @run (toyEnv 1 true) defaults [callWrite hello]
             (newCompressResponseWriter (freshConn (textHeader "1000")) compGzip 9) in
  isBuffered s = true ∧ code s = StatusOK.
Proof.
  intros s.
  assert (isBuffered s = true) as Hbuf by (vm_compute; reflexivity).
  split; [done|].
  exact (@buffered_code_OK (toyEnv 1 true) defaults [callWrite hello]
           (freshConn (textHeader "1000")) compGzip 9 Hbuf).
Defined.

(** Two writes into the buffer of a small text response. *)
Lemma buffered_writes_accumulate_twice :
  let s := after (@WriteHeader (toyEnv 1 true) defaults
                    (newCompressResponseWriter (freshConn (textHeader "1000"))
                       compGzip 9) StatusOK) in
  let s' := @run (toyEnv 1 true) defaults (callWrite <$> [hello; hello]) s in
  err s = None ∧ wroteHeader s = true ∧ w s = wZ ∧ z s = @zOpen (toyEnv 1 true) false wBuf
  ∧ data (buf s') = data (buf s) ++ hello ++ hello
  ∧ ResponseWriter s' = ResponseWriter s.
Proof.
  intros s s'.
  assert (err s = None) as He by (vm_compute; reflexivity).
  assert (wroteHeader s = true) as Hwh by (vm_compute; reflexivity).
  assert (w s = wZ) as Hw by (vm_compute; reflexivity).
  assert (z s = @zOpen (toyEnv 1 true) false wBuf) as Hz by (vm_compute; reflexivity).
  split_and!; [done..| |];
    by destruct (@buffered_writes_accumulate (toyEnv 1 true) defaults [hello; hello]
                   s false He Hwh Hw Hz) as (_ & Hd & _ & Hr).
Defined.

Lemma New_flush_last_gzip :
  let r := {| reqHeader := Set_ ∅ hdrAcceptEncoding "gzip" |} in
  let h := λ _ : Request,
             hHeader (λ _, textHeader "1000") (hWrite hello (λ _, hReturn)) in
  let res := @New (toyEnv 1 true) defaults h (freshConn ∅) r in
  checkAcceptEncoding (reqHeader r) ≠ compNone
  ∧ @rw_flusher (toyEnv 1 true) = true
  ∧ logged res = []
  ∧ last (calls (conn res)) = Some EvFlush.
Proof.
  intros r h res.
  assert (checkAcceptEncoding (reqHeader r) ≠ compNone) as Hc
    by (vm_compute; discriminate).
  assert (logged res = []) as Hl by (vm_compute; reflexivity).
  split_and!; [done..|].
  exact (@New_flush_last (toyEnv 1 true) defaults h (freshConn ∅) r Hc eq_refl Hl).
Defined.
